(** * csvmonkey: a shallow embedding of [csvmonkey.hpp]

    The development follows the header top to bottom: the stream cursors
    ([MappedFileCursor], [FdStreamCursor]), [CsvCell], the two
    [StringSpanner]s and [strcspn16], [CsvCursor] and finally [CsvReader]
    with [try_parse], [refill] and [read_row].

    Pointers are addresses in [Z]; the process memory is a total map from
    addresses to bytes, so that a read past the end of a window (the
    16-byte loads of the scanner) has a value that statements can
    quantify over.  Bytes are unsigned values in [Z].  The reader is a
    record of its members and no part of that memory; the one store of
    [try_parse] that can leave the array of cells, into the slot after
    the last, is modelled on the members that it hits. *)

From Stdlib Require Import ZArith Lia Bool.
From stdpp Require Import base tactics option list.

Open Scope Z_scope.

(** ** Bytes, memory, machine integers *)

Abbreviation byte := Z (only parsing).
Definition memory := Z -> byte.

Definition NUL : byte := 0.
Definition LF : byte := 10.      (* line feed *)
Definition CR : byte := 13.      (* carriage return *)
Definition QUOTE : byte := 34.   (* the double quote *)
Definition COMMA : byte := 44.   (* the comma *)

(** [size_t] arithmetic is modulo 2^64. *)
Definition size_t (x : Z) : Z := x mod 2 ^ 64.

(** The [int] that the low four bytes of [x] hold. *)
Definition int (x : Z) : Z := (x + 2 ^ 31) mod 2 ^ 32 - 2 ^ 31.

(** The [n] bytes found at address [p]. *)
Fixpoint load (m : memory) (p : Z) (n : nat) : list byte :=
  match n with
  | O => []
  | S k => m p :: load m (p + 1) k
  end.

(** Memory after writing [bs] at address [p]. *)
Definition store (m : memory) (p : Z) (bs : list byte) : memory :=
  fun a =>
    if (p <=? a) && (a <? p + Z.of_nat (length bs))
    then nth (Z.to_nat (a - p)) bs 0
    else m a.

(** [memcpy(dst, src, n)]: the source bytes are read before any is written. *)
Definition memcpy (m : memory) (dst src : Z) (n : Z) : memory :=
  store m dst (load m src (Z.to_nat n)).

(** ** Outcomes

    [try_parse] stores through a pointer into a 256-slot array without a
    bound check: the store after the last slot lands on the members that
    follow the array and is modelled as such, a store further on leaves
    the reader and is a fault.  [BufferedStreamCursor::more] asserts its
    precondition, a fault too.  [OutOfFuel] is the outcome of a loop
    model whose fuel ran out. *)

Inductive fault := CellOverrun | AssertionFailed.

Inductive result (A : Type) :=
| Ok (a : A)
| Fault (f : fault)
| OutOfFuel.
Arguments Ok {A} a.
Arguments Fault {A} f.
Arguments OutOfFuel {A}.

#[global] Instance result_ret : MRet result := fun A a => Ok a.
#[global] Instance result_bind : MBind result := fun A B k r =>
  match r with
  | Ok a => k a
  | Fault f => Fault f
  | OutOfFuel => OutOfFuel
  end.

(** ** class StreamCursor *)

Class StreamCursor (C : Type) := {
  buf : C -> Z;
  size : C -> Z;
  more : Z -> memory -> C -> result (bool * memory * C)
}.

(** ** class MappedFileCursor *)

Module MappedFileCursor.

Record t := Build {
  map_ : Z;
  mapsize_ : Z;
  remain_ : Z;
  buf_ : Z
}.

Definition buf (c : t) : Z := buf_ c.
Definition size (c : t) : Z := remain_ c.

Definition more (shift : Z) (c : t) : bool * t :=
  let shift := if remain_ c <? shift then remain_ c else shift in
  let buf' := buf_ c + (remain_ c - shift) in
  let remain' := remain_ c - (remain_ c - shift) in
  (0 <? remain',
   {| map_ := map_ c; mapsize_ := mapsize_ c; remain_ := remain'; buf_ := buf' |}).

(** The cursor as [open] leaves it, for a file of [n] bytes mapped at [a]. *)
Definition opened (a n : Z) : t :=
  {| map_ := a; mapsize_ := n; remain_ := n; buf_ := a |}.

End MappedFileCursor.

#[global] Instance MappedFileCursor_StreamCursor : StreamCursor MappedFileCursor.t := {
  buf := MappedFileCursor.buf;
  size := MappedFileCursor.size;
  more := fun shift m c =>
    let '(rc, c') := MappedFileCursor.more shift c in Ok (rc, m, c')
}.

(** ** The descriptor behind [::read]

    What the kernel will hand out: each element is what one more call
    can deliver, either some bytes or a failure; the empty list is end
    of file.  A call delivers at most [count] bytes and leaves the rest
    of a delivery for the next call. *)

Inductive fd_event :=
| Bytes (bs : list byte)
| Failure.

Definition sys_read (fd : list fd_event) (m : memory) (dst count : Z)
  : Z * list fd_event * memory :=
  match fd with
  | [] => (0, [], m)
  | Failure :: fd' => (-1, fd', m)
  | Bytes bs :: fd' =>
      let n := Z.to_nat (Z.min count (Z.of_nat (length bs))) in
      let rest := drop n bs in
      (Z.of_nat n,
       match rest with [] => fd' | _ => Bytes rest :: fd' end,
       store m dst (take n bs))
  end.

(** ** class BufferedStreamCursor and its subclass FdStreamCursor *)

Module FdStreamCursor.

Record t := Build {
  buf_ : Z;          (* &buf_[0] *)
  buf_size : Z;      (* buf_.size() *)
  size_ : Z;
  fd_ : list fd_event
}.

Definition buf (c : t) : Z := buf_ c.
Definition size (c : t) : Z := size_ c.

Definition readmore (m : memory) (c : t) : Z * memory * t :=
  let '(rc, fd', m') := sys_read (fd_ c) m (buf_ c + size_ c) (buf_size c - size_ c) in
  (rc, m', {| buf_ := buf_ c; buf_size := buf_size c; size_ := size_ c; fd_ := fd' |}).

(** [BufferedStreamCursor::more]; the first assertion, [shift >= 0], holds
    of every [size_t]. *)
Definition more (shift : Z) (m : memory) (c : t) : result (bool * memory * t) :=
  if negb (shift <=? size_ c) then Fault AssertionFailed else
  let m1 := memcpy m (buf_ c) ((buf_ c + size_ c) - shift) shift in
  let c1 := {| buf_ := buf_ c; buf_size := buf_size c; size_ := shift; fd_ := fd_ c |} in
  let '(rc, m2, c2) := readmore m1 c1 in
  if rc =? -1 then Ok (false, m2, c2) else
  let c3 := {| buf_ := buf_ c2; buf_size := buf_size c2; size_ := size_ c2 + rc; fd_ := fd_ c2 |} in
  Ok (negb (size_ c3 =? 0), m2, c3).

(** The cursor as its constructor leaves it: a zeroed vector of 131072
    bytes at address [a], nothing read yet. *)
Definition create (a : Z) (fd : list fd_event) : t :=
  {| buf_ := a; buf_size := 131072; size_ := 0; fd_ := fd |}.

End FdStreamCursor.

#[global] Instance FdStreamCursor_StreamCursor : StreamCursor FdStreamCursor.t := {
  buf := FdStreamCursor.buf;
  size := FdStreamCursor.size;
  more := FdStreamCursor.more
}.

(** ** struct CsvCell *)

(** [strncmp(s1, s2, n)] of the C library: at most [n] bytes are compared,
    as unsigned chars, and nothing after a NUL that both strings share. *)
Fixpoint strncmp (m : memory) (s1 s2 : Z) (n : nat) : Z :=
  match n with
  | O => 0
  | S k =>
      let c1 := m s1 in
      let c2 := m s2 in
      if c1 =? c2
      then (if c1 =? NUL then 0 else strncmp m (s1 + 1) (s2 + 1) k)
      else c1 - c2
  end.

Module CsvCell.

Record t := Build {
  ptr : Z;
  size : Z
}.

Definition as_str (m : memory) (c : t) : list byte :=
  load m (ptr c) (Z.to_nat (size c)).

Definition equals (m : memory) (c : t) (str : Z) : bool :=
  0 =? strncmp m (ptr c) str (Z.to_nat (size c)).

End CsvCell.

(** ** The SSE4.2 string instruction

    [_mm_cmpistri(a, b, 0)] is PCMPISTRI with control byte 0: unsigned
    bytes, equal-any aggregation, positive polarity, least significant
    index.  Both operands are strings of implicit length: an element is
    valid when no element up to and including it is NUL.  Bit [j] of the
    intermediate result says that the valid element [j] of [b] equals
    some valid element of [a]; the instruction returns the least such
    [j], or 16. *)

Definition valid (v : list byte) (i : nat) : bool :=
  forallb (fun x => negb (x =? NUL)) (take (S i) v).

Definition BoolRes (a b : list byte) (i j : nat) : bool :=
  valid a i && valid b j && (nth i a 0 =? nth j b 0).

Definition IntRes1 (a b : list byte) (j : nat) : bool :=
  existsb (fun i => BoolRes a b i j) (seq 0 16).

Fixpoint least_set (bits : nat -> bool) (j : nat) (n : nat) : Z :=
  match n with
  | O => Z.of_nat j
  | S k => if bits j then Z.of_nat j else least_set bits (S j) k
  end.

Definition _mm_cmpistri (a b : list byte) : Z :=
  least_set (IntRes1 a b) 0 16.

Definition _mm_loadu_si128 (m : memory) (p : Z) : list byte := load m p 16.

(** The vector literal [(__v16qi){args...}]: missing elements are zero. *)
Definition v16qi (args : list byte) : list byte :=
  take 16 (args ++ replicate 16 0).

(** ** struct StringSpanner, SSE4.2 version *)

Module StringSpanner.

(** The constructor copies the bytes of the C string at [charset] up to
    its NUL, sixteen at most, over a zeroed vector. *)
Fixpoint fill (m : memory) (charset : Z) (vq : list byte) (i : nat) (n : nat) : list byte :=
  match n with
  | O => vq
  | S k =>
      if negb (m (charset + Z.of_nat i) =? NUL) && (i <? 16)%nat
      then fill m charset (<[i := m (charset + Z.of_nat i)]> vq) (S i) k
      else vq
  end.

Definition create (m : memory) (charset : Z) : list byte :=
  fill m charset (v16qi [0]) 0 17.

Definition call (v_ : list byte) (m : memory) (buf : Z) : Z :=
  _mm_cmpistri v_ (_mm_loadu_si128 m buf).

End StringSpanner.

(** ** struct StringSpanner, portable version

    [charset_] is a table of 256 flags.  The constructor (spelled
    [FallbackStringSpanner] in the header) fills it with [!c], sets the
    entry of every byte of the C string [charset] to [c] and clears entry
    0; [c] defaults to true.  A byte above 127 is a negative [char] whose
    conversion to [unsigned] lies far outside the table: that store is
    not one into the table, and no table is built ([None], which is also
    the answer when the string does not end within the fuel). *)

Module FallbackStringSpanner.

Definition b2z (b : bool) : Z := if b then 1 else 0.

Definition unsigned_of_char (x : byte) : Z :=
  if x <? 128 then x else x + 2 ^ 32 - 256.

Fixpoint mark (m : memory) (charset : Z) (c : bool) (tbl : list Z) (n : nat) : option (list Z) :=
  match n with
  | O => None
  | S k =>
      if m charset =? NUL then Some tbl
      else if unsigned_of_char (m charset) <? 256
      then mark m (charset + 1) c
             (<[Z.to_nat (unsigned_of_char (m charset)) := b2z c]> tbl) k
      else None
  end.

Definition create (m : memory) (charset : Z) (c : bool) (fuel : nat) : option (list Z) :=
  tbl ← mark m charset c (replicate 256 (b2z (negb c))) fuel;
  Some (<[0%nat := 0]> tbl).

(** [operator()]: four bytes an iteration, until one has a zero flag. *)
Fixpoint scan (charset_ : list Z) (m : memory) (s p : Z) (fuel : nat) : option Z :=
  match fuel with
  | O => None
  | S k =>
      let c0 := m p in
      let c1 := m (p + 1) in
      let c2 := m (p + 2) in
      let c3 := m (p + 3) in
      let t0 := nth (Z.to_nat c0) charset_ 0 in
      let t1 := nth (Z.to_nat c1) charset_ 0 in
      let t2 := nth (Z.to_nat c2) charset_ 0 in
      let t3 := nth (Z.to_nat c3) charset_ 0 in
      if negb (4 =? t0 + t1 + t2 + t3) then
        if t0 =? 0 then Some (p - s)
        else if t1 =? 0 then Some ((p + 1) - s)
        else if t2 =? 0 then Some ((p + 2) - s)
        else Some ((p + 3) - s)
      else scan charset_ m s (p + 4) k
  end.

Definition call (charset_ : list Z) (m : memory) (s : Z) (fuel : nat) : option Z :=
  scan charset_ m s s fuel.

End FallbackStringSpanner.

(** ** class CsvCursor *)

Module CsvCursor.

Record t := Build {
  cells : list CsvCell.t;    (* CsvCell cells[256] *)
  count : Z
}.

Definition capacity : nat := 256.

Definition create : t :=
  {| cells := replicate capacity (CsvCell.Build 0 0); count := 0 |}.

(** The contents of the cells of the current row. *)
Definition contents (m : memory) (r : t) : list (list byte) :=
  map (CsvCell.as_str m) (take (Z.to_nat (count r)) (cells r)).

End CsvCursor.

(** [CsvCursor::by_value]: the loop [for(i = 0; i < count; i++)] compares
    [value] with the bytes of [cells[i]] as [std::string]s, that is length
    and bytes, and stops at the first cell that is equal.  [Some i] stands
    for true with [cell = &cells[i]], [None] for false; reading a slot
    that the array does not have is a fault. *)
Fixpoint by_value_from (m : memory) (row : CsvCursor.t) (value : list byte)
    (i : nat) (todo : nat) : result (option nat) :=
  match todo with
  | O => Ok None
  | S k =>
      match CsvCursor.cells row !! i with
      | None => Fault CellOverrun
      | Some c =>
          if bool_decide (value = CsvCell.as_str m c) then Ok (Some i)
          else by_value_from m row value (S i) k
      end
  end.

Definition by_value (m : memory) (row : CsvCursor.t) (value : list byte)
  : result (option nat) :=
  by_value_from m row value O (Z.to_nat (CsvCursor.count row)).

(** [strcspn16(buf, args...)] *)
Definition strcspn16 (m : memory) (buf : Z) (args : list byte) : Z :=
  _mm_cmpistri (v16qi args) (_mm_loadu_si128 m buf).

(** ** class CsvReader *)

(** The four labels of [try_parse]. *)
Inductive label :=
| cell_start
| in_quoted_cell
| in_unquoted_cell
| in_escape_or_end_of_cell.

Module CsvReader.

Record t (C : Type) := Build {
  stream_ : C;
  row_ : CsvCursor.t;
  endp_ : Z;
  p_ : Z
}.
Arguments Build {C}.
Arguments stream_ {C}.
Arguments row_ {C}.
Arguments endp_ {C}.
Arguments p_ {C}.

(** [cell->ptr = ...; cell->size = ...] where [cell] points at slot [i]
    of [row_.cells]: nothing checks that the slot exists.  On x86-64,
    for which the header is written, the members lie in the reader as
    they are declared: [stream_], then [row_], that is the 256 cells of
    16 bytes each, [count] and four bytes of padding, then [endp_], then
    [p_].  So the slot after the last, [cells[256]], lies on [count] and
    [endp_]: the store of [ptr], the eight bytes of an address, low
    bytes first, leaves its low four bytes in [count], and the store of
    [size] leaves [size] in [endp_].  A slot further on lies on [p_] and
    on what follows the reader, which is no part of this model, and a
    [ptr] that is no address, negative or beyond 2^64, has no bytes:
    those stores are faults here.  Neither is ever met by a reader whose
    window lies at addresses ([try_parse_returns_always]). *)
Definition store_cell (row : CsvCursor.t) (endp : Z) (i : nat) (c : CsvCell.t)
  : option (CsvCursor.t * Z) :=
  if (i <? CsvCursor.capacity)%nat
  then Some ({| CsvCursor.cells := <[i := c]> (CsvCursor.cells row);
                CsvCursor.count := CsvCursor.count row |}, endp)
  else if (i =? CsvCursor.capacity)%nat
          && (0 <=? CsvCell.ptr c) && (CsvCell.ptr c <? 2 ^ 64)
  then Some ({| CsvCursor.cells := CsvCursor.cells row;
                CsvCursor.count := int (CsvCell.ptr c) |}, CsvCell.size c)
  else None.

(** [++row_.count], on an [int] *)
Definition incr_count (row : CsvCursor.t) : CsvCursor.t :=
  {| CsvCursor.cells := CsvCursor.cells row;
     CsvCursor.count := int (CsvCursor.count row + 1) |}.

(** Where one pass through a label of [try_parse] leads: to a label, with
    new values of the locals and of the members [row_] and [endp_]; out
    of the function, with [Some p'] where the source assigns [p_ = p']
    and returns true and [None] where [PREAMBLE] breaks out of the loop
    and false is returned; or to a store outside the reader. *)
Inductive next :=
| Goto (l : label) (p start : Z) (cell : nat) (row : CsvCursor.t) (endp : Z)
| Return (res : option Z) (row : CsvCursor.t) (endp : Z)
| Crash (f : fault).

(** The code under each label.  The locals are [p], the pointer [start]
    (the variable [cell_start] of the source) and [cell], an index into
    [row_.cells]; [row] and [endp] are the members [row_] and [endp_],
    which the stores write. *)
Definition parse_step (m : memory) (endp : Z) (l : label)
    (p start : Z) (cell : nat) (row : CsvCursor.t) : next :=
  if endp <=? p then Return None row endp else
  match l with
  | cell_start =>
      if m p =? CR then Goto cell_start (p + 1) start cell row endp
      else if m p =? QUOTE then Goto in_quoted_cell (p + 1) (p + 1) cell row endp
      else Goto in_unquoted_cell p p cell row endp
  | in_quoted_cell =>
      let rc := strcspn16 m p [QUOTE] in
      if rc =? 16 then Goto in_quoted_cell (p + 16) start cell row endp
      else Goto in_escape_or_end_of_cell (p + (rc + 1)) start cell row endp
  | in_unquoted_cell =>
      let rc := strcspn16 m p [COMMA; CR; LF] in
      if negb (rc =? 0) then Goto in_unquoted_cell (p + rc) start cell row endp
      else
        match store_cell row endp cell (CsvCell.Build start (size_t (p - start))) with
        | None => Crash CellOverrun
        | Some (row, endp) =>
            let row := incr_count row in
            if m p =? LF then Return (Some (p + 1)) row endp
            else Goto cell_start (p + 1) start (S cell) row endp
        end
  | in_escape_or_end_of_cell =>
      if m p =? COMMA then
        match store_cell row endp cell (CsvCell.Build start (size_t (p - start - 1))) with
        | None => Crash CellOverrun
        | Some (row, endp) => Goto cell_start (p + 1) start (S cell) (incr_count row) endp
        end
      else if m p =? LF then
        match store_cell row endp cell (CsvCell.Build start (size_t (p - start - 1))) with
        | None => Crash CellOverrun
        | Some (row, endp) => Return (Some (p + 1)) (incr_count row) endp
        end
      else Goto in_quoted_cell (p + 1) start cell row endp
  end.

(** The loop [for(;;)] of [try_parse]. *)
Fixpoint parse_loop (m : memory) (endp : Z) (fuel : nat) (l : label)
    (p start : Z) (cell : nat) (row : CsvCursor.t)
  : result (option Z * CsvCursor.t * Z) :=
  match fuel with
  | O => OutOfFuel
  | S fuel =>
      match parse_step m endp l p start cell row with
      | Goto l p start cell row endp => parse_loop m endp fuel l p start cell row
      | Return res row endp => Ok (res, row, endp)
      | Crash f => Fault f
      end
  end.

(** Every iteration but the one leaving [cell_start] for
    [in_unquoted_cell] moves [p] forward, so two iterations a byte of the
    window, and two more, are fuel enough; after a store that overwrites
    [endp_] the next [PREAMBLE] leaves the loop ([try_parse_total]
    below). *)
Definition parse_fuel (p endp : Z) : nat := S (S (2 * Z.to_nat (endp - p))).

Section Reader.
Context {C : Type} `{StreamCursor C}.

(** The constructor. *)
Definition create (stream : C) : t C :=
  {| stream_ := stream; row_ := CsvCursor.create;
     endp_ := buf stream + size stream; p_ := buf stream |}.

Definition try_parse (m : memory) (r : t C) : result (bool * t C) :=
  let row := {| CsvCursor.cells := CsvCursor.cells (row_ r); CsvCursor.count := 0 |} in
  '(res, row, endp) ← parse_loop m (endp_ r) (parse_fuel (p_ r) (endp_ r))
                        cell_start (p_ r) (p_ r) 0 row;
  match res with
  | Some p' =>
      Ok (true, {| stream_ := stream_ r; row_ := row; endp_ := endp; p_ := p' |})
  | None =>
      Ok (false, {| stream_ := stream_ r; row_ := row; endp_ := endp; p_ := p_ r |})
  end.

(** The [shift] that [refill] hands to [more]. *)
Definition refill_shift (r : t C) : Z :=
  if p_ r <? endp_ r
  then size_t (size (stream_ r) - (endp_ r - p_ r))
  else 0.

Definition refill (m : memory) (r : t C) : result (bool * memory * t C) :=
  let shift := refill_shift r in
  '(rc, m', s') ← more shift m (stream_ r);
  let p := buf s' in
  Ok (rc, m', {| stream_ := s'; row_ := row_ r; endp_ := p + size s'; p_ := p |}).

Definition read_row (m : memory) (r : t C) : result (bool * memory * t C) :=
  '(ok, r1) ← try_parse m r;
  if negb ok then
    '(rc, m2, r2) ← refill m r1;
    if negb rc then Ok (false, m2, r2)
    else '(ok2, r3) ← try_parse m2 r2; Ok (ok2, m2, r3)
  else Ok (true, m, r1).

(** The row that [row()] shows, as byte strings. *)
Definition row (m : memory) (r : t C) : list (list byte) :=
  CsvCursor.contents m (row_ r).

(** A caller's loop: rows are read, and their cells copied out, until
    [read_row] returns false or [n] rows were read. *)
Fixpoint read_rows (n : nat) (m : memory) (r : t C) : result (list (list (list byte))) :=
  match n with
  | O => Ok []
  | S k =>
      '(ok, m', r') ← read_row m r;
      if negb ok then Ok ([] : list (list (list byte)))
      else rows ← read_rows k m' r'; Ok (row m' r' :: rows)
  end.

End Reader.

End CsvReader.

(** ** Notions used to state the properties *)

(** Membership in a stop set. *)
Definition is_stop (args : list byte) (x : byte) : bool := existsb (Z.eqb x) args.

(** The number of leading bytes of [chunk] that are not stop bytes. *)
Fixpoint leading (args chunk : list byte) : nat :=
  match chunk with
  | [] => O
  | x :: rest => if is_stop args x then O else S (leading args rest)
  end.

(** The same count for a string of implicit length: a NUL met before any
    stop byte ends the string, nothing was found, and the answer is the
    width of the chunk. *)
Fixpoint span (args chunk : list byte) : nat :=
  match chunk with
  | [] => O
  | x :: rest =>
      if x =? NUL then length chunk
      else if is_stop args x then O
      else S (span args rest)
  end.

(** Fields joined by a separator. *)
Fixpoint join (sep : byte) (fields : list (list byte)) : list byte :=
  match fields with
  | [] => []
  | [f] => f
  | f :: rest => f ++ sep :: join sep rest
  end.

(** A byte that an unquoted field may hold and that the scanner steps
    over: no separator, no line end, no quote, no NUL. *)
Definition plain (x : byte) : Prop :=
  x <> NUL /\ x <> COMMA /\ x <> CR /\ x <> LF /\ x <> QUOTE.

(** [bs] is a prefix of [l]. *)
Definition is_prefix (bs l : list byte) : Prop := exists rest, l = bs ++ rest.

(** A byte that a scan for the stop set [args] steps over. *)
Definition skipped (args : list byte) (x : byte) : Prop :=
  x <> NUL /\ is_stop args x = false.

Section LoopNotions.
Variables (m : memory) (endp : Z).

(** A configuration of the loop: a label and the locals. *)
Definition run (f : nat) (c : label * Z * Z * nat * CsvCursor.t) :=
  let '(l, p, start, cell, row) := c in CsvReader.parse_loop m endp f l p start cell row.

Definition step (c : label * Z * Z * nat * CsvCursor.t) : CsvReader.next :=
  let '(l, p, start, cell, row) := c in CsvReader.parse_step m endp l p start cell row.

Definition weight (c : label * Z * Z * nat * CsvCursor.t) : nat :=
  let '(l, p, _, _, _) := c in
  (2 * Z.to_nat (endp - p) + match l with in_unquoted_cell => 1 | _ => 2 end)%nat.

(** The start of the cell that is being scanned lies behind [p]. *)
Definition ordered (c : label * Z * Z * nat * CsvCursor.t) : Prop :=
  let '(l, p, start, _, _) := c in
  match l with
  | cell_start => True
  | in_quoted_cell | in_unquoted_cell => start <= p
  | in_escape_or_end_of_cell => start + 1 <= p
  end.

(** What keeps the stores inside the reader: no address is negative,
    and the loop has not yet stored into the slot after the last. *)
Definition safe (c : label * Z * Z * nat * CsvCursor.t) : Prop :=
  let '(l, p, start, cell, _) := c in
  0 <= p /\ (cell <= CsvCursor.capacity)%nat /\
  match l with
  | cell_start => True
  | in_quoted_cell | in_unquoted_cell => 0 <= start <= p
  | in_escape_or_end_of_cell => 0 <= start /\ start + 1 <= p
  end.

(** [c] leads to [c'] in some number of iterations that leave [endp_]
    as it is. *)
Definition reaches (c c' : label * Z * Z * nat * CsvCursor.t) : Prop :=
  exists n, forall f, run (n + f) c = run f c'.

(** [c] leads out of the loop with [r]. *)
Definition returns (c : label * Z * Z * nat * CsvCursor.t)
    (r : result (option Z * CsvCursor.t * Z)) : Prop :=
  exists n, forall f, run (n + f) c = r.

End LoopNotions.

(** The cells of a row of unquoted fields that starts at [p]: a field, a
    separator, the next field. *)
Fixpoint cells_of (p : Z) (fields : list (list byte)) : list CsvCell.t :=
  match fields with
  | [] => []
  | f :: rest =>
      CsvCell.Build p (Z.of_nat (length f))
        :: cells_of (p + Z.of_nat (length f) + 1) rest
  end.

(** The array after cells were stored in slots [i], [i + 1], ... *)
Fixpoint put_cells (cs : list CsvCell.t) (i : nat) (new : list CsvCell.t) : list CsvCell.t :=
  match new with
  | [] => cs
  | c :: rest => put_cells (<[i := c]> cs) (S i) rest
  end.

(** What the reader relies on in a cursor: a window never has a negative
    size, and [more] answers true only when the new window is not empty. *)
Class StreamCursorLaws (C : Type) `{StreamCursor C} := {
  more_size : forall shift m c rc m' c',
    0 <= shift -> 0 <= size c -> more shift m c = Ok (rc, m', c') ->
    0 <= size c' /\ (rc = true -> 0 < size c')
}.

Module Wf.

(** A reader the constructor and the operations can produce: the array
    has its 256 slots, the committed position is inside the window, and
    the window lies in the 64-bit address space. *)
Definition reader {C : Type} (r : CsvReader.t C) : Prop :=
  length (CsvCursor.cells (CsvReader.row_ r)) = CsvCursor.capacity /\
  0 <= CsvReader.p_ r <= CsvReader.endp_ r /\
  CsvReader.endp_ r < 2 ^ 64.

End Wf.

(** ** Concrete inputs

    A file of bytes [bs] mapped at address [a] into memory that is zero
    elsewhere, the reader of that mapping, and the reader of a descriptor
    whose buffer lies at address [a]. *)
Definition file (a : Z) (bs : list byte) : memory := store (fun _ => 0) a bs.

Definition mapped (a : Z) (bs : list byte) : CsvReader.t MappedFileCursor.t :=
  CsvReader.create (MappedFileCursor.opened a (Z.of_nat (length bs))).

Definition buffered (a : Z) (fd : list fd_event) : CsvReader.t FdStreamCursor.t :=
  CsvReader.create (FdStreamCursor.create a fd).

(** What a call of [read_row] or [try_parse] shows to its caller: the
    answer and, as byte strings, the cells of [row()]. *)
Definition shown {C : Type} (res : result (bool * memory * CsvReader.t C))
  : result (bool * list (list byte)) :=
  '(b, m, r) ← res; Ok (b, CsvReader.row m r).

(** The answer alone. *)
Definition answer {C : Type} (res : result (bool * memory * CsvReader.t C)) : result bool :=
  '(b, _, _) ← res; Ok b.

(** The row of the quoted example: a quote, [he said], two quotes, [hi],
    three quotes, a line feed; and the bytes between its outer quotes. *)
Definition quoted_row : list byte :=
  [34; 104; 101; 32; 115; 97; 105; 100; 32; 34; 34; 104; 105; 34; 34; 34; 10].

Definition quoted_cell : list byte :=
  [104; 101; 32; 115; 97; 105; 100; 32; 34; 34; 104; 105; 34; 34].

(** The outcome of a call that is known to return, for use at concrete
    inputs: [d] stands in where the call faults. *)
Definition outcome {A : Type} (d : A) (res : result A) : A :=
  match res with Ok a => a | _ => d end.

(** Memory that was never written. *)
Definition zeroed : memory := fun _ => 0.

(** Example inputs: the row [a,b] ended by carriage return and line feed;
    the two rows [a,b] and [cd,e]; a row whose first field holds a NUL
    byte, followed by a row of fourteen letters; a row of 257 fields
    and one of 258; an unterminated quoted field. *)
Definition crlf_row : list byte := [97; 44; 98; 13; 10].

Definition two_rows : list byte := [97; 44; 98; 10; 99; 100; 44; 101; 10].

Definition nul_fields : list (list byte) := [[97; 0]; [98]].

Definition nul_input : list byte :=
  join COMMA nul_fields ++ [LF] ++ replicate 14 99 ++ [LF].

Definition wide_fields : list (list byte) := replicate 257 [97].

Definition wide_row : list byte := join COMMA wide_fields ++ [LF].

Definition wider_row : list byte := join COMMA (replicate 258 [97]) ++ [LF].

Definition open_quote : list byte := [34; 97; 98].

Definition ab_fields : list (list byte) := [[97]; [98]].

Definition ab_row : list byte := join COMMA ab_fields ++ [LF].



(** ** Rows as they are written

    A field is written bare or between quotes.  A bare field holds plain
    bytes; a quoted one holds any bytes but quotes and NUL, separators and
    line ends included.  A row is written as its fields joined by commas
    and ended by a line feed. *)
Inductive field :=
| Bare (bs : list byte)
| Quoted (bs : list byte).

Definition written (f : field) : list byte :=
  match f with
  | Bare bs => bs
  | Quoted bs => QUOTE :: bs ++ [QUOTE]
  end.

Definition text (f : field) : list byte :=
  match f with
  | Bare bs => bs
  | Quoted bs => bs
  end.

Definition field_ok (f : field) : Prop :=
  match f with
  | Bare bs => Forall plain bs
  | Quoted bs => Forall (skipped [QUOTE]) bs
  end.

Definition line (fs : list field) : list byte := join COMMA (map written fs) ++ [LF].

Definition row_ok (fs : list field) : Prop :=
  fs <> [] /\ (length fs <= CsvCursor.capacity)%nat /\ Forall field_ok fs.

(** The cell of a field written at [p], and the cells of a row. *)
Definition field_cell (p : Z) (f : field) : CsvCell.t :=
  match f with
  | Bare bs => CsvCell.Build p (Z.of_nat (length bs))
  | Quoted bs => CsvCell.Build (p + 1) (Z.of_nat (length bs))
  end.

Fixpoint field_cells (p : Z) (fs : list field) : list CsvCell.t :=
  match fs with
  | [] => []
  | f :: rest => field_cell p f :: field_cells (p + Z.of_nat (length (written f)) + 1) rest
  end.

(** A descriptor that delivers rows in pieces that end where a row ends:
    each delivery is a list of rows. *)
Definition deliveries_fd (deliveries : list (list (list field))) : list fd_event :=
  map (fun rows => Bytes (concat (map line rows))) deliveries.

(** A delivery that the reader of a buffer of [cap] bytes can take: it
    holds a row at least, its rows are well formed, and it fits. *)
Definition delivery_ok (cap : Z) (rows : list (list field)) : Prop :=
  rows <> [] /\ Forall row_ok rows /\
  Z.of_nat (length (concat (map line rows))) <= cap.

(** More example inputs: the row of the fields [a], [b,c] between
    quotes, and [d]; a file of that row and of a row with an empty first
    field; the same rows in two deliveries; what [read_row] leaves on the
    first row; a small buffered cursor with four bytes in its window, and
    what [more] leaves of it. *)
Definition abcd_row : list field := [Bare [97]; Quoted [98; 44; 99]; Bare [100]].

Definition abcd_rows : list (list field) := [abcd_row; [Bare []; Bare [101]]].

Definition abcd_deliveries : list (list (list field)) :=
  [[abcd_row]; [[Bare []; Bare [101]]; abcd_row]].

Definition abcd_outcome : bool * memory * CsvReader.t MappedFileCursor.t :=
  outcome (false, zeroed, mapped 1000 (line abcd_row))
    (CsvReader.read_row (file 1000 (line abcd_row)) (mapped 1000 (line abcd_row))).

Definition small_cursor : FdStreamCursor.t :=
  {| FdStreamCursor.buf_ := 0; FdStreamCursor.buf_size := 16;
     FdStreamCursor.size_ := 4; FdStreamCursor.fd_ := [Bytes [120; 121]] |}.

Definition small_more_outcome : bool * memory * FdStreamCursor.t :=
  outcome (false, zeroed, small_cursor)
    (FdStreamCursor.more 2 (file 0 [97; 98; 99; 100]) small_cursor).

(** * Properties *)

(** ** Memory *)

Lemma load_length m p n : length (load m p n) = n.
Proof. revert p; induction n as [|n IH]; intros p; simpl; [done|]. by rewrite IH. Qed.

Lemma load_nth m p n (i : nat) :
  (i < n)%nat -> nth i (load m p n) 0 = m (p + Z.of_nat i).
Proof.
  revert p i; induction n as [|n IH]; intros p i Hi; [lia|].
  destruct i as [|i]; simpl.
  - f_equal; lia.
  - rewrite IH by lia. f_equal; lia.
Qed.

Lemma load_app m p (a b : nat) :
  load m p (a + b) = load m p a ++ load m (p + Z.of_nat a) b.
Proof.
  revert p; induction a as [|a IH]; intros p.
  - simpl. f_equal; lia.
  - cbn [load Nat.add app]. rewrite IH. do 3 f_equal; lia.
Qed.

Lemma load_ext m m' p n :
  (forall a, p <= a < p + Z.of_nat n -> m a = m' a) ->
  load m p n = load m' p n.
Proof.
  revert p; induction n as [|n IH]; intros p Hm; [done|].
  cbn [load]. rewrite (Hm p) by lia. f_equal. apply IH. intros a Ha. apply Hm; lia.
Qed.

(** A list found in memory gives its bytes one by one. *)
Lemma load_eq_nth m p (bs : list byte) (i : nat) :
  load m p (length bs) = bs -> (i < length bs)%nat ->
  m (p + Z.of_nat i) = nth i bs 0.
Proof. intros Hl Hi. rewrite <- (load_nth m p (length bs)) by done. by rewrite Hl. Qed.

Lemma load_eq_app m p (a b : list byte) :
  load m p (length (a ++ b)) = a ++ b ->
  load m p (length a) = a /\ load m (p + Z.of_nat (length a)) (length b) = b.
Proof.
  rewrite length_app, load_app. intros Heq.
  apply app_inj_1 in Heq; [done|]. apply load_length.
Qed.

Lemma store_inside m p bs a :
  p <= a < p + Z.of_nat (length bs) -> store m p bs a = nth (Z.to_nat (a - p)) bs 0.
Proof.
  intros Ha. unfold store.
  destruct (Z.leb_spec p a); [|lia]. destruct (Z.ltb_spec a (p + Z.of_nat (length bs))); [done|lia].
Qed.

Lemma store_outside m p bs a :
  a < p \/ p + Z.of_nat (length bs) <= a -> store m p bs a = m a.
Proof.
  intros Ha. unfold store.
  destruct (Z.leb_spec p a); [|done]. destruct (Z.ltb_spec a (p + Z.of_nat (length bs))); [lia|done].
Qed.

Lemma load_store m p bs : load (store m p bs) p (length bs) = bs.
Proof.
  apply (nth_ext _ _ 0 0); [apply load_length|].
  intros i Hi. rewrite load_length in Hi. rewrite load_nth by done.
  rewrite store_inside by lia. f_equal; lia.
Qed.

(** ** The string instruction and the scanners built on it *)

Lemma valid_cons_0 x v : valid (x :: v) 0 = negb (x =? NUL).
Proof. unfold valid. simpl. apply andb_true_r. Qed.

Lemma valid_cons_S x v i : valid (x :: v) (S i) = negb (x =? NUL) && valid v i.
Proof. reflexivity. Qed.

Lemma valid_true_iff v i :
  valid v i = true <-> forall k, (k <= i)%nat -> (k < length v)%nat -> nth k v 0 <> NUL.
Proof.
  revert i; induction v as [|x v IH]; intros i.
  - split; [simpl; lia|]. intros _. unfold valid. by destruct i.
  - destruct i as [|i].
    + rewrite valid_cons_0, negb_true_iff, Z.eqb_neq. split.
      * intros Hx k Hk _. by replace k with O by lia.
      * intros Hk. apply (Hk O); simpl; lia.
    + rewrite valid_cons_S, andb_true_iff, negb_true_iff, Z.eqb_neq, IH. split.
      * intros [Hx Hv] [|k] Hk Hlen; [done|]. simpl in *. apply Hv; lia.
      * intros Hk. split; [apply (Hk O); simpl; lia|].
        intros k Hle Hlen. apply (Hk (S k)); simpl; lia.
Qed.

Lemma nth_replicate_zero k n : nth k (replicate n 0) 0 = 0.
Proof. revert k; induction n as [|n IH]; intros [|k]; simpl; auto. Qed.

Lemma v16qi_length args : length (v16qi args) = 16%nat.
Proof. unfold v16qi. rewrite length_take, length_app, length_replicate. lia. Qed.

Lemma nth_v16qi args i :
  (i < length args)%nat -> (i < 16)%nat -> nth i (v16qi args) 0 = nth i args 0.
Proof.
  intros Hi H16. unfold v16qi. rewrite nth_firstn.
  destruct (Nat.ltb_spec i 16); [|lia]. by rewrite app_nth1.
Qed.

Lemma nth_v16qi_zero args i : (length args <= i)%nat -> nth i (v16qi args) 0 = 0.
Proof.
  intros Hi. unfold v16qi. rewrite nth_firstn.
  destruct (Nat.ltb_spec i 16); [|done].
  rewrite app_nth2 by lia. apply nth_replicate_zero.
Qed.

Lemma valid_v16qi args i :
  Forall (fun x => x <> NUL) args -> (i < 16)%nat ->
  valid (v16qi args) i = true <-> (i < length args)%nat.
Proof.
  intros Hnz Hi. rewrite valid_true_iff, v16qi_length. split.
  - intros Hk. destruct (Nat.lt_ge_cases i (length args)) as [|Hge]; [done|].
    exfalso. apply (Hk (length args)); [lia..|]. by apply nth_v16qi_zero.
  - intros Hlt k Hk _. rewrite nth_v16qi by lia.
    rewrite List.Forall_forall in Hnz. apply Hnz. apply nth_In. lia.
Qed.

(** Bit [j] of the intermediate result of the instruction: element [j] of
    the string is valid and is one of the stop bytes. *)
Lemma IntRes1_v16qi args b j :
  Forall (fun x => x <> NUL) args -> (length args <= 16)%nat ->
  IntRes1 (v16qi args) b j = valid b j && is_stop args (nth j b 0).
Proof.
  intros Hnz Hlen. apply eq_true_iff_eq. unfold IntRes1, is_stop.
  rewrite andb_true_iff, !existsb_exists. split.
  - intros (i & Hin & Hres). apply in_seq in Hin. unfold BoolRes in Hres.
    apply andb_true_iff in Hres as [Hres Heq].
    apply andb_true_iff in Hres as [Ha Hb].
    apply valid_v16qi in Ha; [|done|lia].
    rewrite nth_v16qi in Heq by lia. apply Z.eqb_eq in Heq.
    split; [done|]. exists (nth i args 0). split; [by apply nth_In|].
    rewrite Heq. apply Z.eqb_refl.
  - intros (Hb & x & Hin & Heq). apply Z.eqb_eq in Heq.
    destruct (In_nth _ _ 0 Hin) as (i & Hi & Hnth).
    exists i. split; [apply in_seq; lia|]. unfold BoolRes.
    rewrite Hb, andb_true_r, andb_true_iff. split.
    + apply valid_v16qi; [done|lia|done].
    + rewrite nth_v16qi by lia. rewrite Hnth, Heq. apply Z.eqb_refl.
Qed.

Lemma least_set_shift bits j n :
  least_set bits (S j) n = 1 + least_set (fun i => bits (S i)) j n.
Proof.
  revert j; induction n as [|n IH]; intros j; simpl; [lia|].
  destruct (bits (S j)); [lia|]. apply IH.
Qed.

Lemma least_set_none bits j n :
  (forall i, (j <= i < j + n)%nat -> bits i = false) ->
  least_set bits j n = Z.of_nat (j + n).
Proof.
  revert j; induction n as [|n IH]; intros j Hb; simpl; [f_equal; lia|].
  rewrite Hb by lia. rewrite IH; [f_equal; lia|]. intros i Hi. apply Hb; lia.
Qed.

Lemma least_set_span args b bits :
  (forall j, (j < length b)%nat -> bits j = valid b j && is_stop args (nth j b 0)) ->
  least_set bits 0 (length b) = Z.of_nat (span args b).
Proof.
  revert bits; induction b as [|x b IH]; intros bits Hbits; [done|].
  cbn [length least_set span].
  rewrite (Hbits O) by (simpl; lia). rewrite valid_cons_0. cbn [nth].
  destruct (Z.eqb_spec x NUL) as [Hx|Hx]; cbn [negb andb].
  - rewrite least_set_none; [done|]. intros [|i] Hi; [lia|].
    rewrite Hbits by (simpl; lia). rewrite valid_cons_S.
    destruct (Z.eqb_spec x NUL); [done|contradiction].
  - destruct (is_stop args x); [done|].
    rewrite least_set_shift, IH; [lia|]. intros j Hj.
    rewrite Hbits by (simpl; lia). rewrite valid_cons_S. cbn [nth].
    destruct (Z.eqb_spec x NUL); [contradiction|done].
Qed.

(** The instruction, applied to a stop set and a chunk, computes [span]. *)
Lemma cmpistri_span args b :
  Forall (fun x => x <> NUL) args -> (length args <= 16)%nat -> length b = 16%nat ->
  _mm_cmpistri (v16qi args) b = Z.of_nat (span args b).
Proof.
  intros Hnz Hlen Hb. unfold _mm_cmpistri. rewrite <- Hb.
  apply least_set_span. intros j _. by apply IntRes1_v16qi.
Qed.

Lemma strcspn16_span m p args :
  Forall (fun x => x <> NUL) args -> (length args <= 16)%nat ->
  strcspn16 m p args = Z.of_nat (span args (load m p 16)).
Proof.
  intros Hnz Hlen. unfold strcspn16, _mm_loadu_si128.
  apply cmpistri_span; [done..|apply load_length].
Qed.

Lemma span_le args b : (span args b <= length b)%nat.
Proof.
  induction b as [|x b IH]; simpl; [lia|].
  destruct (x =? NUL); [lia|]. destruct (is_stop args x); lia.
Qed.

Lemma strcspn16_range m p args :
  Forall (fun x => x <> NUL) args -> (length args <= 16)%nat ->
  0 <= strcspn16 m p args <= 16.
Proof.
  intros Hnz Hlen. rewrite strcspn16_span by done.
  pose proof (span_le args (load m p 16)) as Hle. rewrite load_length in Hle. lia.
Qed.

(** ** The loop of [try_parse] *)

Lemma size_t_le x : 0 <= x -> 0 <= size_t x <= x.
Proof.
  intros Hx. unfold size_t. split; [apply Z.mod_pos_bound; lia|].
  apply Z.mod_le; lia.
Qed.

Lemma int_small x : - 2 ^ 31 <= x < 2 ^ 31 -> int x = x.
Proof. intros Hx. unfold int. rewrite Z.mod_small; lia. Qed.

Lemma run_S m endp f c :
  run m endp (S f) c =
  match step m endp c with
  | CsvReader.Goto l p start cell row e => run m e f (l, p, start, cell, row)
  | CsvReader.Return res row e => Ok (res, row, e)
  | CsvReader.Crash e => Fault e
  end.
Proof. by destruct c as [[[[l p] start] cell] row]. Qed.

Lemma run_mono m f : forall endp f' c r,
  run m endp f c = r -> r <> OutOfFuel -> (f <= f')%nat -> run m endp f' c = r.
Proof.
  induction f as [|f IH]; intros endp f' c r Hr Hne Hle.
  - destruct c as [[[[l p] start] cell] row]. simpl in Hr. congruence.
  - destruct f' as [|f']; [lia|]. rewrite run_S in *.
    destruct (step m endp c); [|done..]. apply IH; [done..|lia].
Qed.

(** At and past the end of the window every label leaves the loop. *)
Lemma run_past_end m e f l p start cell row :
  e <= p -> run m e (S f) (l, p, start, cell, row) = Ok (None, row, e).
Proof.
  intros Hle. rewrite run_S. unfold step, CsvReader.parse_step.
  by destruct (Z.leb_spec e p); [|lia].
Qed.

Lemma stop_set_unquoted :
  Forall (fun x => x <> NUL) [COMMA; CR; LF] /\ (length [COMMA; CR; LF] <= 16)%nat.
Proof. split; [by repeat constructor|simpl; lia]. Qed.

Lemma stop_set_quoted :
  Forall (fun x => x <> NUL) [QUOTE] /\ (length [QUOTE] <= 16)%nat.
Proof. split; [by repeat constructor|simpl; lia]. Qed.

(** What a store leaves: the cell in its slot, or, from the slot after
    the last, the low half of the pointer in [count] and the size in
    [endp_]. *)
Lemma store_cell_Some row endp i c row' e :
  CsvReader.store_cell row endp i c = Some (row', e) ->
  ((i < CsvCursor.capacity)%nat /\ e = endp /\
   CsvCursor.count row' = CsvCursor.count row /\
   CsvCursor.cells row' = <[i := c]> (CsvCursor.cells row)) \/
  (i = CsvCursor.capacity /\ 0 <= CsvCell.ptr c < 2 ^ 64 /\ e = CsvCell.size c /\
   CsvCursor.count row' = int (CsvCell.ptr c) /\
   CsvCursor.cells row' = CsvCursor.cells row).
Proof.
  unfold CsvReader.store_cell. destruct (Nat.ltb_spec i CsvCursor.capacity).
  - intros [= <- <-]. by left.
  - destruct (Nat.eqb_spec i CsvCursor.capacity); [|done].
    destruct (Z.leb_spec 0 (CsvCell.ptr c)); [|done].
    destruct (Z.ltb_spec (CsvCell.ptr c) (2 ^ 64)); [|done].
    intros [= <- <-]. right. repeat split; done || lia.
Qed.

Lemma store_cell_inside row endp i c :
  (i < CsvCursor.capacity)%nat ->
  CsvReader.store_cell row endp i c =
  Some ({| CsvCursor.cells := <[i := c]> (CsvCursor.cells row);
           CsvCursor.count := CsvCursor.count row |}, endp).
Proof.
  intros Hi. unfold CsvReader.store_cell.
  by destruct (Nat.ltb_spec i CsvCursor.capacity); [|lia].
Qed.

Lemma step_ordered m endp c l p start cell row e :
  step m endp c = CsvReader.Goto l p start cell row e -> ordered c ->
  ordered (l, p, start, cell, row).
Proof.
  destruct c as [[[[l0 p0] start0] cell0] row0].
  unfold step, CsvReader.parse_step, ordered.
  destruct (Z.leb_spec endp p0) as [|Hlt]; [done|].
  pose proof (strcspn16_range m p0 [QUOTE] (proj1 stop_set_quoted) (proj2 stop_set_quoted)).
  pose proof (strcspn16_range m p0 [COMMA; CR; LF]
                (proj1 stop_set_unquoted) (proj2 stop_set_unquoted)).
  destruct l0; cbv zeta; repeat case_match; intros ? ?; simplify_eq; try done; lia.
Qed.

(** A pass through a label leaves [endp_] as it is, unless it stores into
    the slot after the last: then [endp_] is the size of a cell that was
    scanned, which lies below [p], and the next [PREAMBLE] leaves the
    loop. *)
Lemma step_endp m endp c l p start cell row e :
  step m endp c = CsvReader.Goto l p start cell row e -> ordered c ->
  e = endp \/ (l = cell_start /\ e <= p /\ c.1.2 = CsvCursor.capacity).
Proof.
  destruct c as [[[[l0 p0] start0] cell0] row0].
  unfold step, CsvReader.parse_step, ordered.
  destruct (Z.leb_spec endp p0) as [|Hlt]; [done|].
  pose proof (size_t_le (p0 - start0)) as Hu.
  pose proof (size_t_le (p0 - start0 - 1)) as Hq.
  destruct l0; cbv zeta; intros Hs Ho.
  - repeat case_match; simplify_eq; auto.
  - repeat case_match; simplify_eq; auto.
  - destruct (negb _); [simplify_eq; auto|].
    destruct (CsvReader.store_cell _ _ _ _) as [[row1 e1]|] eqn:Hst; [|done].
    destruct (m p0 =? LF); [done|]. injection Hs as <- <- <- <- <- <-.
    apply store_cell_Some in Hst as [(_ & -> & _)|(-> & Hptr & -> & _)]; [by left|].
    right. cbn [CsvCell.ptr CsvCell.size] in *. repeat split; try done; lia.
  - destruct (m p0 =? COMMA).
    + destruct (CsvReader.store_cell _ _ _ _) as [[row1 e1]|] eqn:Hst; [|done].
      injection Hs as <- <- <- <- <- <-.
      apply store_cell_Some in Hst as [(_ & -> & _)|(-> & Hptr & -> & _)]; [by left|].
      right. cbn [CsvCell.ptr CsvCell.size] in *. repeat split; try done; lia.
    + repeat case_match; simplify_eq; auto.
Qed.

Lemma step_weight m endp c l p start cell row e :
  step m endp c = CsvReader.Goto l p start cell row e -> ordered c ->
  (weight e (l, p, start, cell, row) < weight endp c)%nat.
Proof.
  intros Hs Ho. destruct (step_endp _ _ _ _ _ _ _ _ _ Hs Ho) as [->|(-> & Hle & _)].
  - clear Ho. revert Hs. destruct c as [[[[l0 p0] start0] cell0] row0].
    unfold step, CsvReader.parse_step, weight.
    destruct (Z.leb_spec endp p0) as [|Hlt]; [done|].
    pose proof (strcspn16_range m p0 [QUOTE] (proj1 stop_set_quoted) (proj2 stop_set_quoted)).
    pose proof (strcspn16_range m p0 [COMMA; CR; LF]
                  (proj1 stop_set_unquoted) (proj2 stop_set_unquoted)).
    destruct l0; cbv zeta.
    + repeat case_match; intros ?; simplify_eq; lia.
    + repeat case_match; intros ?; simplify_eq; lia.
    + destruct (Z.eqb_spec (strcspn16 m p0 [COMMA; CR; LF]) 0); cbn [negb].
      * repeat case_match; intros ?; simplify_eq; lia.
      * intros ?; simplify_eq; lia.
    + repeat case_match; intros ?; simplify_eq; lia.
  - revert Hs. destruct c as [[[[l0 p0] start0] cell0] row0].
    unfold step, CsvReader.parse_step, weight.
    destruct (Z.leb_spec endp p0) as [|Hlt]; [done|].
    intros _. destruct l0; lia.
Qed.

(** The loop ends: fuel is never what stops it. *)
Lemma run_total m f : forall endp c,
  ordered c -> (weight endp c <= f)%nat -> run m endp f c <> OutOfFuel.
Proof.
  induction f as [|f IH]; intros endp c Ho Hw.
  - destruct c as [[[[[] p] start] cell] row]; simpl in Hw; lia.
  - rewrite run_S. destruct (step m endp c) eqn:Hs; [|done..].
    apply IH; [by eapply step_ordered|].
    apply step_weight in Hs; [lia|done].
Qed.

Section Loop.
Variables (m : memory) (endp : Z).

Import CsvReader.

Local Abbreviation run := (run m endp).
Local Abbreviation step := (step m endp).
Local Abbreviation weight := (weight endp).
Local Abbreviation reaches := (reaches m endp).
Local Abbreviation returns := (returns m endp).

Lemma returns_run c r f :
  returns c r -> ordered c -> (weight c <= f)%nat -> run f c = r.
Proof.
  intros [n Hn] Ho Hw.
  rewrite <- (Hn (f - n)%nat).
  symmetry. apply (run_mono m f); [done|by apply run_total|lia].
Qed.

Lemma reaches_refl c : reaches c c.
Proof. by exists O. Qed.

Lemma reaches_trans c1 c2 c3 : reaches c1 c2 -> reaches c2 c3 -> reaches c1 c3.
Proof.
  intros [n1 H1] [n2 H2]. exists (n2 + n1)%nat. intros f.
  replace (n2 + n1 + f)%nat with (n1 + (n2 + f))%nat by lia. by rewrite H1, H2.
Qed.

Lemma reaches_step c l p start cell row :
  step c = Goto l p start cell row endp -> reaches c (l, p, start, cell, row).
Proof. intros Hs. exists 1%nat. intros f. cbn [Nat.add]. by rewrite run_S, Hs. Qed.

Lemma reaches_returns c1 c2 r : reaches c1 c2 -> returns c2 r -> returns c1 r.
Proof.
  intros [n1 H1] [n2 H2]. exists (n2 + n1)%nat. intros f.
  replace (n2 + n1 + f)%nat with (n1 + (n2 + f))%nat by lia. by rewrite H1, H2.
Qed.

Lemma returns_step c res row e :
  step c = Return res row e -> returns c (Ok (res, row, e)).
Proof. intros Hs. exists 1%nat. intros f. cbn [Nat.add]. by rewrite run_S, Hs. Qed.

Lemma returns_crash c e : step c = Crash e -> returns c (Fault e).
Proof. intros Hs. exists 1%nat. intros f. cbn [Nat.add]. by rewrite run_S, Hs. Qed.

End Loop.

(** ** Scanning a field *)

Section Scan.
Variables (m : memory) (endp : Z).

Local Abbreviation step := (step m endp).
Local Abbreviation reaches := (reaches m endp).
Local Abbreviation returns := (returns m endp).

Lemma load_drop p (l : list byte) (k : nat) :
  load m p (length l) = l -> (k <= length l)%nat ->
  load m (p + Z.of_nat k) (length (drop k l)) = drop k l.
Proof.
  intros Hl Hk. rewrite length_drop.
  pose proof (load_app m p k (length l - k)) as Ha.
  replace (k + (length l - k))%nat with (length l) in Ha by lia.
  assert (load m p k ++ load m (p + Z.of_nat k) (length l - k) = take k l ++ drop k l)
    as Heq by (rewrite take_drop; congruence).
  apply app_inj_1 in Heq as [_ Heq]; [done|].
  rewrite load_length, length_take. lia.
Qed.

Lemma load_take p (l : list byte) (k : nat) :
  load m p (length l) = l -> (k <= length l)%nat -> load m p k = take k l.
Proof.
  intros Hl Hk.
  pose proof (load_app m p k (length l - k)) as Ha.
  replace (k + (length l - k))%nat with (length l) in Ha by lia.
  assert (load m p k ++ load m (p + Z.of_nat k) (length l - k) = take k l ++ drop k l)
    as Heq by (rewrite take_drop; congruence).
  apply app_inj_1 in Heq as [Heq _]; [done|].
  rewrite load_length, length_take. lia.
Qed.

Lemma is_stop_not_NUL args t :
  Forall (fun x => x <> NUL) args -> is_stop args t = true -> t <> NUL.
Proof.
  intros Hnz Hs. unfold is_stop in Hs. apply existsb_exists in Hs as (x & Hin & Heq).
  apply Z.eqb_eq in Heq. subst x. rewrite List.Forall_forall in Hnz. by apply Hnz.
Qed.

(** The scanner applied to bytes that it steps over, followed by a stop
    byte: the number of the former, or the chunk width when the stop byte
    lies beyond the chunk. *)
Lemma span_load args p bs t n :
  Forall (skipped args) bs -> is_stop args t = true -> t <> NUL ->
  load m p (S (length bs)) = bs ++ [t] ->
  span args (load m p n) = Nat.min (length bs) n.
Proof.
  intros Hbs Ht Hnz. revert p n.
  induction Hbs as [|x bs [Hx Hxs] Hbs IH]; intros p n Hl.
  - destruct n as [|n]; [done|]. simpl in Hl. injection Hl as Hp. cbn [load span].
    rewrite Hp. destruct (Z.eqb_spec t NUL); [done|]. by rewrite Ht.
  - destruct n as [|n]; [done|]. cbn [length load app] in Hl. injection Hl as Hp Hl.
    cbn [load span length]. rewrite Hp.
    destruct (Z.eqb_spec x NUL); [done|]. rewrite Hxs.
    rewrite (IH (p + 1) n Hl). lia.
Qed.

Lemma strcspn16_load args p bs t :
  Forall (fun x => x <> NUL) args -> (length args <= 16)%nat ->
  Forall (skipped args) bs -> is_stop args t = true ->
  load m p (S (length bs)) = bs ++ [t] ->
  strcspn16 m p args = Z.of_nat (Nat.min (length bs) 16).
Proof.
  intros Hnz Hlen Hbs Ht Hl. rewrite strcspn16_span by done.
  f_equal. eapply span_load; eauto using is_stop_not_NUL.
Qed.

(** What is found in memory after [k] of the stepped-over bytes. *)
Lemma load_field_drop p (bs : list byte) t (k : nat) :
  load m p (S (length bs)) = bs ++ [t] -> (k <= length bs)%nat ->
  load m (p + Z.of_nat k) (S (length (drop k bs))) = drop k bs ++ [t].
Proof.
  intros Hl Hk.
  pose proof (load_drop p (bs ++ [t]) k) as Hd.
  rewrite length_app, Nat.add_1_r in Hd. specialize (Hd Hl ltac:(lia)).
  rewrite drop_app_le in Hd by done.
  by rewrite length_app, Nat.add_1_r in Hd.
Qed.

Lemma reaches_eq l p p' start cell row :
  p = p' -> reaches (l, p, start, cell, row) (l, p', start, cell, row).
Proof. intros ->. apply reaches_refl. Qed.

(** [in_unquoted_cell] moves [p] to the byte that ends the field. *)
Lemma unquoted_scan bs t p start cell row :
  Forall (skipped [COMMA; CR; LF]) bs -> is_stop [COMMA; CR; LF] t = true ->
  load m p (S (length bs)) = bs ++ [t] ->
  p + Z.of_nat (length bs) < endp ->
  reaches (in_unquoted_cell, p, start, cell, row)
          (in_unquoted_cell, p + Z.of_nat (length bs), start, cell, row).
Proof.
  intros Hbs Ht. remember (length bs) as n eqn:Hn. revert bs Hn Hbs p.
  induction n as [n IH] using lt_wf_ind. intros bs Hn Hbs p Hl Hend.
  destruct (Nat.eq_dec n 0%nat) as [->|Hpos].
  - apply reaches_eq. lia.
  - destruct stop_set_unquoted as [Hnz Hlen].
    pose proof (strcspn16_load _ p bs t Hnz Hlen Hbs Ht ltac:(by rewrite <- Hn)) as Hrc.
    rewrite <- Hn in Hrc. set (k := Nat.min n 16) in *.
    eapply reaches_trans.
    + apply reaches_step. unfold step, CsvReader.parse_step.
      destruct (Z.leb_spec endp p); [lia|]. cbv zeta. rewrite Hrc.
      destruct (Z.eqb_spec (Z.of_nat k) 0); [lia|]. reflexivity.
    + assert (k <= length bs)%nat as Hk by lia.
      pose proof (load_field_drop p bs t k ltac:(by rewrite <- Hn) Hk) as Hl'.
      eapply reaches_trans.
      * apply (IH (n - k)%nat ltac:(lia) (drop k bs)); [by rewrite length_drop; lia| |..].
        -- by apply Forall_drop.
        -- rewrite length_drop in Hl'. by rewrite <- Hn in Hl'.
        -- lia.
      * apply reaches_eq. lia.
Qed.

(** [in_quoted_cell] moves [p] past the next quote. *)
Lemma quoted_scan bs p start cell row :
  Forall (skipped [QUOTE]) bs ->
  load m p (S (length bs)) = bs ++ [QUOTE] ->
  p + Z.of_nat (length bs) < endp ->
  reaches (in_quoted_cell, p, start, cell, row)
          (in_escape_or_end_of_cell, p + Z.of_nat (length bs) + 1, start, cell, row).
Proof.
  remember (length bs) as n eqn:Hn. revert bs Hn p.
  induction n as [n IH] using lt_wf_ind. intros bs Hn p Hbs Hl Hend.
  destruct stop_set_quoted as [Hnz Hlen].
  pose proof (strcspn16_load [QUOTE] p bs QUOTE Hnz Hlen Hbs eq_refl
                ltac:(by rewrite <- Hn)) as Hrc.
  rewrite <- Hn in Hrc.
  destruct (Nat.lt_ge_cases n 16) as [Hlt|Hge].
  - eapply reaches_trans; [apply reaches_step|apply reaches_eq; reflexivity].
    unfold step, CsvReader.parse_step.
    destruct (Z.leb_spec endp p); [lia|]. cbv zeta. rewrite Hrc.
    rewrite Nat.min_l by lia.
    destruct (Z.eqb_spec (Z.of_nat n) 16); [lia|].
    by replace (p + (Z.of_nat n + 1)) with (p + Z.of_nat n + 1) by lia.
  - eapply reaches_trans.
    + apply reaches_step. unfold step, CsvReader.parse_step.
      destruct (Z.leb_spec endp p); [lia|]. cbv zeta. rewrite Hrc.
      rewrite Nat.min_r by lia. reflexivity.
    + assert (16 <= length bs)%nat as Hk by lia.
      pose proof (load_field_drop p bs QUOTE 16 ltac:(by rewrite <- Hn) Hk) as Hl'.
      rewrite length_drop, <- Hn in Hl'.
      eapply reaches_trans.
      * apply (IH (n - 16)%nat ltac:(lia) (drop 16 bs)); [by rewrite length_drop; lia| | |].
        -- by apply Forall_drop.
        -- exact Hl'.
        -- lia.
      * apply reaches_eq. lia.
Qed.

End Scan.

(** ** Rows of unquoted fields *)

Lemma plain_skipped x : plain x -> skipped [COMMA; CR; LF] x.
Proof.
  intros (H0 & Hc & Hr & Hl & _). split; [done|]. unfold is_stop. cbn [existsb].
  destruct (Z.eqb_spec x COMMA); [done|]. destruct (Z.eqb_spec x CR); [done|].
  by destruct (Z.eqb_spec x LF).
Qed.

Lemma size_t_small x : 0 <= x < 2 ^ 64 -> size_t x = x.
Proof. intros Hx. unfold size_t. by apply Z.mod_small. Qed.

Lemma take_put_cells cs i new :
  (i + length new <= length cs)%nat ->
  take (i + length new) (put_cells cs i new) = take i cs ++ new.
Proof.
  revert cs i; induction new as [|c new IH]; intros cs i Hlen.
  - simpl. rewrite Nat.add_0_r. by rewrite app_nil_r.
  - cbn [put_cells length] in *.
    replace (i + S (length new))%nat with (S i + length new)%nat by lia.
    rewrite IH by (rewrite length_insert; lia).
    rewrite (take_S_r _ _ c) by (apply list_lookup_insert_eq; lia).
    rewrite take_insert_ge by lia. by rewrite <- app_assoc.
Qed.

Lemma put_cells_length cs i new : length (put_cells cs i new) = length cs.
Proof.
  revert cs i; induction new as [|c new IH]; intros cs i; [done|].
  cbn [put_cells]. by rewrite IH, length_insert.
Qed.

Section Fields.
Variables (m : memory) (endp : Z).

Local Abbreviation step := (step m endp).
Local Abbreviation reaches := (reaches m endp).
Local Abbreviation returns := (returns m endp).

(** An unquoted field [f] at [p], ended by [t]: [cell_start] and
    [in_unquoted_cell] bring [p] to [t]; there the cell is stored, and the
    row ends if [t] is a line feed. *)
Lemma unquoted_field f t p start cell row :
  Forall plain f -> t = COMMA \/ t = LF ->
  load m p (S (length f)) = f ++ [t] ->
  0 <= p -> p + Z.of_nat (length f) < endp -> endp < 2 ^ 64 ->
  (cell < CsvCursor.capacity)%nat -> 0 <= CsvCursor.count row < 2 ^ 31 - 1 ->
  let row' :=
    {| CsvCursor.cells :=
         <[cell := CsvCell.Build p (Z.of_nat (length f))]> (CsvCursor.cells row);
       CsvCursor.count := CsvCursor.count row + 1 |} in
  reaches (cell_start, p, start, cell, row)
          (in_unquoted_cell, p + Z.of_nat (length f), p, cell, row) /\
  step (in_unquoted_cell, p + Z.of_nat (length f), p, cell, row) =
    if t =? LF then CsvReader.Return (Some (p + Z.of_nat (length f) + 1)) row' endp
    else CsvReader.Goto cell_start (p + Z.of_nat (length f) + 1) p (S cell) row' endp.
Proof.
  intros Hf Ht Hl Hp Hend H64 Hcell Hcount row'.
  assert (is_stop [COMMA; CR; LF] t = true) as Hstop by (by destruct Ht as [-> | ->]).
  assert (Forall (skipped [COMMA; CR; LF]) f) as Hsk
    by (eapply Forall_impl; [exact Hf|apply plain_skipped]).
  assert (m p <> CR /\ m p <> QUOTE) as [Hcr Hq].
  { destruct Hf as [|x f (_ & _ & ? & _ & ?) _]; simpl in Hl.
    - injection Hl as ->. by destruct Ht as [-> | ->].
    - by injection Hl as -> _. }
  split.
  - eapply reaches_trans; [|by apply (unquoted_scan m endp f t)].
    apply reaches_step. unfold step, CsvReader.parse_step.
    destruct (Z.leb_spec endp p); [lia|].
    destruct (Z.eqb_spec (m p) CR); [done|]. by destruct (Z.eqb_spec (m p) QUOTE).
  - pose proof (load_field_drop m p f t (length f) Hl ltac:(lia)) as Hl'.
    rewrite drop_all in Hl'. cbn [length app] in Hl'.
    destruct stop_set_unquoted as [Hnz Hlen].
    pose proof (strcspn16_load m _ _ [] t Hnz Hlen ltac:(constructor) Hstop Hl') as Hrc.
    simpl in Hl'. injection Hl' as Hmt.
    unfold step, CsvReader.parse_step.
    destruct (Z.leb_spec endp (p + Z.of_nat (length f))); [lia|]. cbv zeta.
    rewrite Hrc. cbn [length Nat.min Z.of_nat Z.eqb negb].
    rewrite store_cell_inside by done. unfold CsvReader.incr_count.
    cbn [CsvCursor.cells CsvCursor.count]. rewrite int_small by lia.
    rewrite Hmt. replace (p + Z.of_nat (length f) - p) with (Z.of_nat (length f)) by lia.
    rewrite size_t_small by lia. reflexivity.
Qed.

Lemma returns_eq c r r' : returns c r -> r = r' -> returns c r'.
Proof. by intros ? <-. Qed.

(** A row of unquoted fields, from the first field to the line feed. *)
Lemma unquoted_row fields : forall p start cell row,
  fields <> [] -> Forall (Forall plain) fields ->
  load m p (S (length (join COMMA fields))) = join COMMA fields ++ [LF] ->
  0 <= p -> p + Z.of_nat (length (join COMMA fields)) < endp -> endp < 2 ^ 64 ->
  (cell + length fields <= CsvCursor.capacity)%nat ->
  0 <= CsvCursor.count row -> CsvCursor.count row + Z.of_nat (length fields) < 2 ^ 31 ->
  returns (cell_start, p, start, cell, row)
    (Ok (Some (p + Z.of_nat (length (join COMMA fields)) + 1),
         {| CsvCursor.cells := put_cells (CsvCursor.cells row) cell (cells_of p fields);
            CsvCursor.count := CsvCursor.count row + Z.of_nat (length fields) |},
         endp)).
Proof.
  induction fields as [|f rest IH];
    intros p start cell row Hne Hpl Hl Hp Hend H64 Hcap Hc0 Hc1; [done|].
  apply Forall_cons in Hpl as [Hf Hrest].
  destruct rest as [|f2 rest].
  - cbn [join length] in *.
    destruct (unquoted_field f LF p start cell row Hf ltac:(by right) Hl Hp Hend H64
                ltac:(lia) ltac:(lia)) as [Hreach Hstep].
    eapply reaches_returns; [exact Hreach|]. by apply returns_step.
  - remember (f2 :: rest) as fs eqn:Hfs.
    assert (join COMMA (f :: fs) = f ++ COMMA :: join COMMA fs) as Hj by (by subst fs).
    rewrite Hj in *. clear Hj.
    set (J := join COMMA fs) in *.
    assert (load m p (S (length f)) = f ++ [COMMA] /\
            load m (p + Z.of_nat (length f) + 1) (S (length J)) = J ++ [LF])
      as [Hl1 Hl2].
    { replace (S (length (f ++ COMMA :: J))) with (length ((f ++ [COMMA]) ++ J ++ [LF])) in Hl
        by (rewrite !length_app; simpl; lia).
      replace ((f ++ COMMA :: J) ++ [LF]) with ((f ++ [COMMA]) ++ J ++ [LF]) in Hl
        by (by rewrite <- !app_assoc).
      apply load_eq_app in Hl as [Hl1 Hl2].
      rewrite !length_app in *. cbn [length] in *. rewrite !Nat.add_1_r in *.
      split; [done|]. rewrite <- Hl2. f_equal. lia. }
    rewrite length_app in Hend. cbn [length] in Hend.
    cbn [length] in Hc1.
    destruct (unquoted_field f COMMA p start cell row Hf ltac:(by left) Hl1 Hp
                ltac:(lia) H64 ltac:(simpl in Hcap; lia) ltac:(lia)) as [Hreach Hstep].
    eapply reaches_returns; [exact Hreach|].
    eapply reaches_returns; [apply reaches_step; exact Hstep|].
    eapply returns_eq.
    + apply IH; [by subst fs|done|exact Hl2|lia|fold J; lia|done|simpl in *; lia|
                 cbn [CsvCursor.count]; lia|cbn [CsvCursor.count]; lia].
    + cbn [cells_of put_cells CsvCursor.cells CsvCursor.count length].
      rewrite length_app. cbn [length]. do 3 f_equal; [f_equal; lia|f_equal; lia].
Qed.

(** The cells of such a row, read back from memory, are its fields. *)
Lemma as_str_cells_of fields : forall p,
  load m p (length (join COMMA fields)) = join COMMA fields ->
  map (CsvCell.as_str m) (cells_of p fields) = fields.
Proof.
  induction fields as [|f rest IH]; intros p Hl; [done|].
  cbn [cells_of map]. unfold CsvCell.as_str at 1. cbn [CsvCell.ptr CsvCell.size].
  rewrite Nat2Z.id. destruct rest as [|f2 rest].
  - simpl in *. by rewrite Hl.
  - remember (f2 :: rest) as fs eqn:Hfs.
    assert (join COMMA (f :: fs) = f ++ [COMMA] ++ join COMMA fs) as Hj by (by subst fs).
    rewrite Hj in Hl. apply load_eq_app in Hl as [Hl1 Hl2].
    apply load_eq_app in Hl2 as [_ Hl2]. rewrite Hl1. f_equal.
    apply IH. exact Hl2.
Qed.

End Fields.

(** ** Both cursors keep the laws *)

#[global] Instance MappedFileCursor_laws : StreamCursorLaws MappedFileCursor.t.
Proof.
  constructor. intros shift m c rc m' c' Hs Hc Hmore.
  cbn in Hmore. unfold MappedFileCursor.more in Hmore. cbn in Hc.
  unfold MappedFileCursor.size in Hc. injection Hmore as <- _ <-.
  cbn. unfold MappedFileCursor.size. cbn.
  destruct (Z.ltb_spec (MappedFileCursor.remain_ c) shift);
    (split; [lia|]); intros Hrc; apply Z.ltb_lt in Hrc; lia.
Qed.

Lemma sys_read_count fd m dst count rc fd' m' :
  sys_read fd m dst count = (rc, fd', m') -> rc = -1 \/ 0 <= rc.
Proof.
  unfold sys_read. destruct fd as [|[bs|] fd]; intros [= <- _ _]; lia.
Qed.

#[global] Instance FdStreamCursor_laws : StreamCursorLaws FdStreamCursor.t.
Proof.
  constructor. intros shift m c rc m' c' Hs Hc Hmore.
  cbn in Hmore, Hc. unfold FdStreamCursor.more, FdStreamCursor.readmore in Hmore.
  destruct (shift <=? FdStreamCursor.size_ c); [|done]. cbn [negb] in Hmore.
  cbn [FdStreamCursor.buf_ FdStreamCursor.size_ FdStreamCursor.buf_size
       FdStreamCursor.fd_] in Hmore.
  destruct (sys_read _ _ _ _) as [[n fd'] m2] eqn:Hread.
  apply sys_read_count in Hread.
  destruct (Z.eqb_spec n (-1)) as [->|Hn].
  - injection Hmore as <- _ <-. cbn. unfold FdStreamCursor.size. cbn. split; [lia|done].
  - injection Hmore as <- _ <-. cbn. unfold FdStreamCursor.size. cbn.
    split; [lia|]. intros Hrc. apply negb_true_iff, Z.eqb_neq in Hrc. lia.
Qed.

(** ** Invariants of the loop *)

Section LoopInvariants.
Variable m : memory.

(** After a pass that goes on, either [endp_] is as it was, or the loop
    is left at once, with false. *)
Lemma run_after_step endp f c l p start cell row e r :
  step m endp c = CsvReader.Goto l p start cell row e -> ordered c ->
  run m e f (l, p, start, cell, row) = Ok r ->
  e = endp \/ (r = (None, row, e) /\ e <= p /\ c.1.2 = CsvCursor.capacity).
Proof.
  intros Hs Ho Hr. destruct (step_endp _ _ _ _ _ _ _ _ _ Hs Ho) as [->|(-> & Hle & Hc)];
    [by left|right].
  destruct f as [|f]; [done|]. rewrite run_past_end in Hr by done. by injection Hr as <-.
Qed.

(** [p] never moves back, and a row ends inside the window. *)
Lemma step_forward endp c l p start cell row e :
  step m endp c = CsvReader.Goto l p start cell row e -> c.1.1.1.2 <= p.
Proof.
  destruct c as [[[[l0 p0] start0] cell0] row0]. unfold step, CsvReader.parse_step. cbn.
  destruct (endp <=? p0); [done|].
  pose proof (strcspn16_range m p0 [QUOTE] (proj1 stop_set_quoted) (proj2 stop_set_quoted)).
  pose proof (strcspn16_range m p0 [COMMA; CR; LF]
                (proj1 stop_set_unquoted) (proj2 stop_set_unquoted)).
  destruct l0; cbv zeta; repeat case_match; intros ?; simplify_eq; lia.
Qed.

Lemma step_return_inside endp c p' row e :
  step m endp c = CsvReader.Return (Some p') row e -> c.1.1.1.2 < p' <= endp.
Proof.
  destruct c as [[[[l0 p0] start0] cell0] row0]. unfold step, CsvReader.parse_step. cbn.
  destruct (Z.leb_spec endp p0); [done|].
  destruct l0; cbv zeta; repeat case_match; intros ?; simplify_eq; lia.
Qed.

Lemma run_inside f : forall endp c p' row e,
  ordered c -> run m endp f c = Ok (Some p', row, e) -> c.1.1.1.2 < p' <= endp.
Proof.
  induction f as [|f IH]; intros endp c p' row e Ho Hr.
  - by destruct c as [[[[l p] start] cell] row0].
  - rewrite run_S in Hr. destruct (step m endp c) eqn:Hs; [| |done].
    + destruct (run_after_step _ _ _ _ _ _ _ _ _ _ Hs Ho Hr) as [->|([=] & _)].
      apply IH in Hr; [|by eapply step_ordered].
      apply step_forward in Hs. cbn in Hr. lia.
    + injection Hr as -> <- <-. by apply step_return_inside in Hs.
Qed.

(** A pass never stores further on than the slot after the last: what
    that needs is that addresses are addresses. *)
Lemma safe_ordered c : safe c -> ordered c.
Proof.
  destruct c as [[[[l p] start] cell] row]. intros (_ & _ & Hl). destruct l; cbn in *; lia.
Qed.

Lemma step_safe endp c l p start cell row e :
  step m endp c = CsvReader.Goto l p start cell row e -> safe c ->
  (e = endp /\ safe (l, p, start, cell, row)) \/ e <= p.
Proof.
  destruct c as [[[[l0 p0] start0] cell0] row0].
  unfold step, CsvReader.parse_step, safe.
  destruct (Z.leb_spec endp p0) as [|Hlt]; [done|].
  pose proof (strcspn16_range m p0 [QUOTE] (proj1 stop_set_quoted) (proj2 stop_set_quoted)).
  pose proof (strcspn16_range m p0 [COMMA; CR; LF]
                (proj1 stop_set_unquoted) (proj2 stop_set_unquoted)).
  pose proof (size_t_le (p0 - start0)) as Hu.
  pose proof (size_t_le (p0 - start0 - 1)) as Hq.
  destruct l0; cbv zeta; intros Hs (Hp & Hc & Hl).
  - left. repeat case_match; simplify_eq; (split; [done|]); repeat split; lia.
  - left. repeat case_match; simplify_eq; (split; [done|]); repeat split; lia.
  - destruct (negb _); [simplify_eq; left; (split; [done|]); repeat split; lia|].
    destruct (CsvReader.store_cell _ _ _ _) as [[row1 e1]|] eqn:Hst; [|done].
    destruct (m p0 =? LF); [done|]. injection Hs as <- <- <- <- <- <-.
    apply store_cell_Some in Hst as [(Hi & -> & _)|(-> & Hptr & -> & _)].
    + left. split; [done|]. repeat split; lia.
    + right. cbn [CsvCell.ptr CsvCell.size] in *. lia.
  - destruct (m p0 =? COMMA).
    + destruct (CsvReader.store_cell _ _ _ _) as [[row1 e1]|] eqn:Hst; [|done].
      injection Hs as <- <- <- <- <- <-.
      apply store_cell_Some in Hst as [(Hi & -> & _)|(-> & Hptr & -> & _)].
      * left. split; [done|]. repeat split; lia.
      * right. cbn [CsvCell.ptr CsvCell.size] in *. lia.
    + left. repeat case_match; simplify_eq; (split; [done|]); repeat split; lia.
Qed.

Lemma store_cell_safe row endp i c :
  (i <= CsvCursor.capacity)%nat -> 0 <= CsvCell.ptr c < 2 ^ 64 ->
  CsvReader.store_cell row endp i c <> None.
Proof.
  intros Hi Hptr. unfold CsvReader.store_cell.
  destruct (Nat.ltb_spec i CsvCursor.capacity); [done|].
  destruct (Nat.eqb_spec i CsvCursor.capacity); [|lia].
  destruct (Z.leb_spec 0 (CsvCell.ptr c)); [|lia].
  by destruct (Z.ltb_spec (CsvCell.ptr c) (2 ^ 64)); [|lia].
Qed.

Lemma step_no_fault endp c e :
  safe c -> endp <= 2 ^ 64 -> step m endp c <> CsvReader.Crash e.
Proof.
  destruct c as [[[[l0 p0] start0] cell0] row0].
  unfold step, CsvReader.parse_step, safe. intros (Hp & Hc & Hl) H64.
  destruct (Z.leb_spec endp p0) as [|Hlt]; [done|].
  destruct l0; cbv zeta; try (by repeat case_match).
  - destruct (negb _); [done|].
    pose proof (store_cell_safe row0 endp cell0
                  (CsvCell.Build start0 (size_t (p0 - start0))) Hc) as Hst.
    cbn [CsvCell.ptr] in Hst. specialize (Hst ltac:(lia)).
    destruct (CsvReader.store_cell _ _ _ _) as [[row1 e1]|]; [|done].
    by destruct (m p0 =? LF).
  - pose proof (store_cell_safe row0 endp cell0
                  (CsvCell.Build start0 (size_t (p0 - start0 - 1))) Hc) as Hst.
    cbn [CsvCell.ptr] in Hst. specialize (Hst ltac:(lia)).
    destruct (CsvReader.store_cell _ _ _ _) as [[row1 e1]|]; [|done].
    by repeat case_match.
Qed.

(** From a configuration in which addresses are addresses the loop
    comes back with an answer. *)
Lemma run_no_fault f : forall endp c,
  safe c -> endp <= 2 ^ 64 -> (weight endp c <= f)%nat ->
  exists res row e, run m endp f c = Ok (res, row, e).
Proof.
  induction f as [|f IH]; intros endp c Hsafe H64 Hw.
  - destruct c as [[[[[] p] start] cell] row]; simpl in Hw; lia.
  - rewrite run_S. destruct (step m endp c) as [l p start cell row e|res row e|e] eqn:Hs.
    + pose proof (step_weight _ _ _ _ _ _ _ _ _ Hs (safe_ordered _ Hsafe)) as Hlt.
      destruct (step_safe _ _ _ _ _ _ _ _ Hs Hsafe) as [[-> Hsafe']|Hle].
      * apply IH; [done..|lia].
      * assert (1 <= weight e (l, p, start, cell, row))%nat
          by (unfold weight; destruct l; lia).
        destruct f as [|f]; [lia|].
        rewrite run_past_end by done. eauto.
    + eauto.
    + by apply step_no_fault in Hs.
Qed.

End LoopInvariants.

(** ** [try_parse] and [read_row] *)

Section ReaderFacts.
Context {C : Type} `{StreamCursor C}.

Import CsvReader.

(** The configuration in which [try_parse] enters its loop. *)
Lemma try_parse_unfold m (r : t C) :
  try_parse m r =
  match run m (endp_ r) (parse_fuel (p_ r) (endp_ r))
          (cell_start, p_ r, p_ r, O,
           {| CsvCursor.cells := CsvCursor.cells (row_ r); CsvCursor.count := 0 |}) with
  | Ok (Some p', row, e) =>
      Ok (true, {| stream_ := stream_ r; row_ := row; endp_ := e; p_ := p' |})
  | Ok (None, row, e) =>
      Ok (false, {| stream_ := stream_ r; row_ := row; endp_ := e; p_ := p_ r |})
  | Fault e => Fault e
  | OutOfFuel => OutOfFuel
  end.
Proof.
  unfold try_parse, run. cbn [mbind result_bind].
  destruct (parse_loop _ _ _ _ _ _ _ _) as [[[[p'|] row] e]| |]; reflexivity.
Qed.

Lemma parse_fuel_weight p endp start cell row :
  (weight endp (cell_start, p, start, cell, row) <= parse_fuel p endp)%nat.
Proof. unfold weight, parse_fuel. lia. Qed.


Lemma try_parse_returns m (r : t C) res :
  returns m (endp_ r)
    (cell_start, p_ r, p_ r, O,
     {| CsvCursor.cells := CsvCursor.cells (row_ r); CsvCursor.count := 0 |}) res ->
  try_parse m r =
  match res with
  | Ok (Some p', row, e) =>
      Ok (true, {| stream_ := stream_ r; row_ := row; endp_ := e; p_ := p' |})
  | Ok (None, row, e) =>
      Ok (false, {| stream_ := stream_ r; row_ := row; endp_ := e; p_ := p_ r |})
  | Fault e => Fault e
  | OutOfFuel => OutOfFuel
  end.
Proof.
  intros Hret. rewrite try_parse_unfold.
  by rewrite (returns_run m (endp_ r) _ res _ Hret I (parse_fuel_weight _ _ _ _ _)).
Qed.

(** The stream is not touched; a failed attempt leaves [p_] where it
    was, a successful one moves it forward and not past the end of the
    window in which it began. *)
Lemma try_parse_frame m (r : t C) b r' :
  try_parse m r = Ok (b, r') ->
  stream_ r' = stream_ r /\
  (if b then p_ r < p_ r' <= endp_ r else p_ r' = p_ r).
Proof.
  rewrite try_parse_unfold.
  destruct (run _ _ _ _) as [[[[p'|] row] e]| |] eqn:Hrun; intros [= <- <-]; cbn; [|done].
  apply run_inside in Hrun; [|done]. cbn in Hrun. done.
Qed.

(** From a reader whose window lies at addresses [try_parse] returns,
    true or false: no store leaves the reader. *)
Lemma try_parse_returns_always m (r : t C) :
  0 <= p_ r -> endp_ r <= 2 ^ 64 -> exists b r', try_parse m r = Ok (b, r').
Proof.
  intros Hp H64. rewrite try_parse_unfold.
  destruct (run_no_fault m (parse_fuel (p_ r) (endp_ r)) (endp_ r)
              (cell_start, p_ r, p_ r, O,
               {| CsvCursor.cells := CsvCursor.cells (row_ r); CsvCursor.count := 0 |}))
    as ([p'|] & row & e & ->); [|done|apply parse_fuel_weight|..]; eauto.
  cbn. unfold CsvCursor.capacity. repeat split; lia.
Qed.

Lemma refill_shift_nonneg (r : t C) : 0 <= refill_shift r.
Proof.
  unfold refill_shift, size_t. destruct (p_ r <? endp_ r); [|done].
  apply Z.mod_pos_bound. lia.
Qed.

Lemma refill_frame `{!StreamCursorLaws C} m (r : t C) rc m' r' :
  0 <= size (stream_ r) -> refill m r = Ok (rc, m', r') ->
  row_ r' = row_ r /\ p_ r' = buf (stream_ r') /\
  endp_ r' = p_ r' + size (stream_ r') /\
  0 <= size (stream_ r') /\ (rc = true -> p_ r' < endp_ r').
Proof.
  intros Hsz. unfold refill. cbn [mbind result_bind].
  destruct (more _ _ _) as [[[rc0 m0] s0]| |] eqn:Hmore; [|done..].
  intros [= <- <- <-]. cbn.
  destruct (more_size _ _ _ _ _ _ (refill_shift_nonneg r) Hsz Hmore) as [Hs Hrc].
  repeat split; [done|]. intros ->. specialize (Hrc eq_refl). lia.
Qed.

(** The three ways in which [read_row] returns. *)
Lemma read_row_cases m (r : t C) b m' r' :
  read_row m r = Ok (b, m', r') ->
  (b = true /\ m' = m /\ try_parse m r = Ok (true, r')) \/
  (exists r1, try_parse m r = Ok (false, r1) /\
     ((b = false /\ refill m r1 = Ok (false, m', r')) \/
      (exists r2, refill m r1 = Ok (true, m', r2) /\ try_parse m' r2 = Ok (b, r')))).
Proof.
  unfold read_row.
  destruct (try_parse m r) as [[[] r1]| |]; cbn [mbind result_bind negb]; [| |done..].
  - intros [= <- <- <-]. by left.
  - intros Hrest. right. exists r1. split; [done|]. revert Hrest.
    destruct (refill m r1) as [[[[] m2] r2]| |]; cbn [mbind result_bind negb]; [| |done..].
    + destruct (try_parse m2 r2) as [[ok2 r3]| |] eqn:Htp; cbn [mbind result_bind];
        [|done..].
      intros [= <- <- <-]. right. by exists r2.
    + intros [= <- <- <-]. by left.
Qed.

End ReaderFacts.

(** * The claims *)

Section Claims.
Context {C : Type} `{StreamCursor C}.

Import CsvReader.

Lemma cells_of_length p fields : length (cells_of p fields) = length fields.
Proof. revert p; induction fields as [|f rest IH]; intros p; simpl; [done|]. by rewrite IH. Qed.

Lemma contents_put_cells m cs p fields :
  (length fields <= length cs)%nat ->
  load m p (length (join COMMA fields)) = join COMMA fields ->
  CsvCursor.contents m
    {| CsvCursor.cells := put_cells cs O (cells_of p fields);
       CsvCursor.count := 0 + Z.of_nat (length fields) |} = fields.
Proof.
  intros Hlen Hl. unfold CsvCursor.contents. cbn [CsvCursor.cells CsvCursor.count].
  rewrite Z.add_0_l, Nat2Z.id. rewrite <- (cells_of_length p fields) at 1.
  pose proof (take_put_cells cs O (cells_of p fields)) as Ht.
  cbn [Nat.add take app] in Ht. rewrite Ht by (rewrite cells_of_length; lia).
  by apply as_str_cells_of.
Qed.

(** C3, as amended.  A row of [N] comma-separated unquoted fields, [N]
    between 1 and 256, that holds no quote, carriage return, line feed or
    NUL byte, ends in a line feed and lies in the window at the committed
    position: [read_row] succeeds, [count] is [N], the cells are the
    fields, and the cells joined by commas are the bytes of the row
    without its line feed. *)
Theorem unquoted_row_cells (m : memory) (r : t C) (fields : list (list byte)) :
  Wf.reader r ->
  fields <> [] -> (length fields <= CsvCursor.capacity)%nat ->
  Forall (Forall plain) fields ->
  load m (p_ r) (S (length (join COMMA fields))) = join COMMA fields ++ [LF] ->
  p_ r + Z.of_nat (length (join COMMA fields)) < endp_ r ->
  exists r',
    read_row m r = Ok (true, m, r') /\
    CsvCursor.count (row_ r') = Z.of_nat (length fields) /\
    row m r' = fields /\
    join COMMA (row m r') = join COMMA fields /\
    p_ r' = p_ r + Z.of_nat (length (join COMMA fields)) + 1.
Proof.
  intros (Hcells & Hp & H64) Hne Hlen Hplain Hl Hend.
  pose proof (unquoted_row m (endp_ r) fields (p_ r) (p_ r) O
                {| CsvCursor.cells := CsvCursor.cells (row_ r); CsvCursor.count := 0 |}
                Hne Hplain Hl ltac:(lia) Hend H64 ltac:(lia) ltac:(done)
                ltac:(cbn [CsvCursor.count]; unfold CsvCursor.capacity in Hlen; lia))
    as Hret.
  apply try_parse_returns in Hret. cbv beta iota in Hret.
  assert (load m (p_ r) (length (join COMMA fields)) = join COMMA fields) as Hl'.
  { replace (S (length (join COMMA fields))) with (length (join COMMA fields ++ [LF])) in Hl
      by (rewrite length_app; simpl; lia).
    by apply load_eq_app in Hl as [Hl _]. }
  eexists. split; [|split; [|split; [|split]]].
  - unfold read_row. rewrite Hret. reflexivity.
  - cbn. lia.
  - unfold row. cbn [row_ CsvCursor.cells CsvCursor.count].
    apply contents_put_cells; [rewrite Hcells; lia|done].
  - f_equal. unfold row. cbn [row_ CsvCursor.cells CsvCursor.count].
    apply contents_put_cells; [rewrite Hcells; lia|done].
  - reflexivity.
Qed.

Lemma load_sub m (p : Z) (l : list byte) (a b : nat) :
  load m p (length l) = l -> (a + b <= length l)%nat ->
  load m (p + Z.of_nat a) b = take b (drop a l).
Proof.
  intros Hl Hab. apply load_take; [|rewrite length_drop; lia].
  apply load_drop; [done|lia].
Qed.

(** C7.  The row of the quoted example, wherever it lies in the window:
    [read_row] succeeds with one cell, the bytes between the outer quotes
    with every doubled quote still in place.  And in general: after a
    quote of a quoted field, a byte that is neither a comma nor a line
    feed sends the loop back to [in_quoted_cell], one byte on, with the
    start of the field, the slot and the row untouched. *)
Theorem doubled_quotes_verbatim (m : memory) (r : t C) :
  Wf.reader r ->
  load m (p_ r) 17 = quoted_row -> p_ r + 17 <= endp_ r ->
  (exists r', read_row m r = Ok (true, m, r') /\
     CsvCursor.count (row_ r') = 1 /\ row m r' = [quoted_cell] /\
     p_ r' = p_ r + 17) /\
  (forall p start cell row0,
     p < endp_ r -> m p <> COMMA -> m p <> LF ->
     step m (endp_ r) (in_escape_or_end_of_cell, p, start, cell, row0) =
     Goto in_quoted_cell (p + 1) start cell row0 (endp_ r)).
Proof.
  intros (Hcells & Hp & H64) Hl Hend. split.
  - set (p0 := p_ r) in *. set (e := endp_ r) in *.
    set (row0 := {| CsvCursor.cells := CsvCursor.cells (row_ r); CsvCursor.count := 0 |}).
    assert (forall i : nat, (i < 17)%nat -> m (p0 + Z.of_nat i) = nth i quoted_row 0) as Hm
      by (intros i Hi; by apply load_eq_nth).
    assert (forall a b : nat, (a + b <= 17)%nat ->
              load m (p0 + Z.of_nat a) b = take b (drop a quoted_row)) as Hsub
      by (intros a b Hab; by apply load_sub).
    assert (forall a start cell row1, (a < 17)%nat ->
              nth a quoted_row 0 = QUOTE ->
              step m e (in_escape_or_end_of_cell, p0 + Z.of_nat a, start, cell, row1) =
              Goto in_quoted_cell (p0 + Z.of_nat a + 1) start cell row1 e) as Hesc.
    { intros a start cell row1 Ha Hq. unfold step, parse_step.
      destruct (Z.leb_spec e (p0 + Z.of_nat a)); [lia|]. by rewrite (Hm a Ha), Hq. }
    assert (returns m e (cell_start, p0, p0, O, row0)
              (Ok (Some (p0 + 17),
                   incr_count
                     {| CsvCursor.cells :=
                          <[O := CsvCell.Build (p0 + 1) 14]> (CsvCursor.cells row0);
                        CsvCursor.count := 0 |}, e))) as Hret.
    { eapply reaches_returns.
      { apply reaches_step. unfold step, parse_step.
        destruct (Z.leb_spec e p0); [lia|].
        pose proof (Hm O ltac:(lia)) as Hfirst. rewrite Z.add_0_r in Hfirst.
        by rewrite Hfirst. }
      eapply reaches_returns.
      { apply (quoted_scan m e [104; 101; 32; 115; 97; 105; 100; 32]);
          [by repeat constructor|exact (Hsub 1%nat 9%nat ltac:(lia))|simpl; lia]. }
      replace (p0 + 1 + Z.of_nat (length [104; 101; 32; 115; 97; 105; 100; 32]) + 1)
        with (p0 + Z.of_nat 10) by (simpl; lia).
      eapply reaches_returns; [apply reaches_step, Hesc; [lia|done]|].
      replace (p0 + Z.of_nat 10 + 1) with (p0 + Z.of_nat 11) by lia.
      eapply reaches_returns.
      { apply (quoted_scan m e [104; 105]);
          [by repeat constructor|exact (Hsub 11%nat 3%nat ltac:(lia))|simpl; lia]. }
      replace (p0 + Z.of_nat 11 + Z.of_nat (length [104; 105]) + 1)
        with (p0 + Z.of_nat 14) by (simpl; lia).
      eapply reaches_returns; [apply reaches_step, Hesc; [lia|done]|].
      replace (p0 + Z.of_nat 14 + 1) with (p0 + Z.of_nat 15) by lia.
      eapply reaches_returns.
      { apply (quoted_scan m e []);
          [by constructor|exact (Hsub 15%nat 1%nat ltac:(lia))|simpl; lia]. }
      replace (p0 + Z.of_nat 15 + Z.of_nat (length (@nil Z)) + 1)
        with (p0 + Z.of_nat 16) by (simpl; lia).
      apply returns_step. unfold step, parse_step.
      destruct (Z.leb_spec e (p0 + Z.of_nat 16)); [lia|].
      rewrite (Hm 16%nat ltac:(lia)). cbn [nth quoted_row Z.eqb COMMA LF Pos.eqb].
      rewrite store_cell_inside by (unfold CsvCursor.capacity; lia).
      replace (p0 + Z.of_nat 16 - (p0 + 1) - 1) with 14 by lia.
      replace (p0 + Z.of_nat 16 + 1) with (p0 + 17) by lia.
      reflexivity. }
    apply try_parse_returns in Hret. cbv beta iota in Hret.
    eexists. split; [|split; [|split]].
    + unfold read_row. rewrite Hret. reflexivity.
    + reflexivity.
    + unfold row, CsvCursor.contents. cbn.
      destruct (CsvCursor.cells (row_ r)) as [|c0 cs]; [done|]. cbn.
      unfold CsvCell.as_str.
      change (Z.to_nat (int (0 + 1))) with 1%nat.
      cbn [firstn take map CsvCell.ptr CsvCell.size].
      change (Z.to_nat 14) with 14%nat. change (p0 + 1) with (p0 + Z.of_nat 1).
      by rewrite (Hsub 1%nat 14%nat) by lia.
    + reflexivity.
  - intros p start cell row0 Hlt Hc Hn. unfold step, parse_step.
    destruct (Z.leb_spec (endp_ r) p); [lia|].
    destruct (Z.eqb_spec (m p) COMMA); [done|]. by destruct (Z.eqb_spec (m p) LF).
Qed.

End Claims.

(** ** The scanners *)

Section Scanners.

Lemma span_leading args chunk :
  Forall (fun x => x <> NUL) args ->
  Forall (fun x => x <> NUL) (take (leading args chunk) chunk) ->
  span args chunk = leading args chunk.
Proof.
  intros Hnz. induction chunk as [|x chunk IH]; [done|]. cbn [leading span].
  destruct (is_stop args x) eqn:Hs.
  - intros _. apply (is_stop_not_NUL _ _ Hnz) in Hs. by destruct (Z.eqb_spec x NUL).
  - cbn [firstn]. intros Hall. apply Forall_cons in Hall as [Hx Hall].
    destruct (Z.eqb_spec x NUL); [done|]. by rewrite IH.
Qed.

Lemma span_nul args chunk :
  Exists (fun x => x = NUL) (take (leading args chunk) chunk) ->
  span args chunk = length chunk.
Proof.
  induction chunk as [|x chunk IH]; [done|]. cbn [leading span length].
  destruct (is_stop args x) eqn:Hs; [by intros ?%Exists_nil|].
  cbn [firstn]. intros [Hx|Hex]%Exists_cons.
  - by destruct (Z.eqb_spec x NUL).
  - destruct (x =? NUL); [done|]. by rewrite IH.
Qed.

Lemma span_full args chunk :
  Forall (fun x => is_stop args x = false) chunk -> span args chunk = length chunk.
Proof.
  induction 1 as [|x chunk Hx _ IH]; [done|]. cbn [span length].
  destruct (x =? NUL); [done|]. by rewrite Hx, IH.
Qed.

Lemma span_zero args x chunk :
  Forall (fun x => x <> NUL) args ->
  span args (x :: chunk) = O <-> is_stop args x = true.
Proof.
  intros Hnz. cbn [span length]. destruct (Z.eqb_spec x NUL) as [->|Hx].
  - split; [done|]. intros Hs. by apply (is_stop_not_NUL _ _ Hnz) in Hs.
  - by destruct (is_stop args x).
Qed.

(** The constructor of the SSE4.2 [StringSpanner] builds the vector that
    [strcspn16] gets as a literal. *)
Lemma fill_args m charset args : forall n i vq,
  Forall (fun x => x <> NUL) args -> (length args <= 16)%nat ->
  load m charset (S (length args)) = args ++ [NUL] ->
  length vq = 16%nat -> (i <= length args)%nat -> (length args - i < n)%nat ->
  StringSpanner.fill m charset vq i n = take i vq ++ drop i args ++ drop (length args) vq.
Proof.
  induction n as [|n IH]; intros i vq Hnz Hlen Hl Hvq Hi Hn; [lia|].
  cbn [StringSpanner.fill].
  assert (length (args ++ [NUL]) = S (length args)) as Hlen' by (rewrite length_app; simpl; lia).
  rewrite <- Hlen' in Hl.
  destruct (Nat.eq_dec i (length args)) as [->|Hne].
  - rewrite (load_eq_nth m charset _ (length args) Hl) by lia.
    rewrite app_nth2, Nat.sub_diag by lia. cbn [nth Z.eqb negb andb NUL].
    by rewrite drop_all, app_nil_l, take_drop.
  - rewrite (load_eq_nth m charset _ i Hl) by lia. rewrite app_nth1 by lia.
    destruct (lookup_lt_is_Some_2 args i ltac:(lia)) as [x Hx].
    rewrite (nth_lookup_Some _ _ _ _ Hx).
    assert (x <> NUL) as Hxnz.
    { rewrite List.Forall_forall in Hnz. apply Hnz.
      apply list_elem_of_In. by eapply list_elem_of_lookup_2. }
    destruct (Z.eqb_spec x NUL); [done|]. destruct (Nat.ltb_spec i 16); [|lia].
    cbn [negb andb].
    rewrite IH; [|done|done|by rewrite <- Hlen'|by rewrite length_insert|lia|lia].
    rewrite (take_S_r _ _ x) by (apply list_lookup_insert_eq; lia).
    rewrite take_insert_ge by lia. rewrite drop_insert_lt by lia.
    rewrite (drop_S args x i Hx). by rewrite <- app_assoc.
Qed.

Lemma StringSpanner_create m charset args :
  Forall (fun x => x <> NUL) args -> (length args <= 16)%nat ->
  load m charset (S (length args)) = args ++ [NUL] ->
  StringSpanner.create m charset = v16qi args.
Proof.
  intros Hnz Hlen Hl. unfold StringSpanner.create.
  rewrite (fill_args m charset args) by (done || (simpl; lia)).
  change (v16qi [0]) with (replicate 16 0). rewrite take_0, app_nil_l, drop_0.
  unfold v16qi. rewrite take_app_ge by lia.
  rewrite drop_replicate, take_replicate. do 2 f_equal. lia.
Qed.

(** The portable scanner. *)
Lemma mark_flags m c : forall n charset tbl tbl',
  Forall (fun t => t = 0 \/ t = 1) tbl ->
  FallbackStringSpanner.mark m charset c tbl n = Some tbl' ->
  Forall (fun t => t = 0 \/ t = 1) tbl'.
Proof.
  induction n as [|n IH]; intros charset tbl tbl' Htbl; [done|]. cbn [FallbackStringSpanner.mark].
  destruct (m charset =? NUL); [by intros [= <-]|].
  destruct (_ <? 256); [|done].
  apply IH. apply Forall_insert; [done|]. destruct c; auto.
Qed.

Lemma create_flags m charset c fuel tbl :
  FallbackStringSpanner.create m charset c fuel = Some tbl ->
  Forall (fun t => t = 0 \/ t = 1) tbl.
Proof.
  unfold FallbackStringSpanner.create.
  destruct (FallbackStringSpanner.mark _ _ _ _ _) as [tbl0|] eqn:Hmark; [|done].
  cbn. intros [= <-]. apply Forall_insert; [|auto].
  eapply mark_flags; [|exact Hmark]. apply Forall_replicate. destruct c; auto.
Qed.

Lemma flag_cases tbl x :
  Forall (fun t => t = 0 \/ t = 1) tbl -> nth x tbl 0 = 0 \/ nth x tbl 0 = 1.
Proof.
  intros Htbl. destruct (Nat.lt_ge_cases x (length tbl)).
  - rewrite List.Forall_forall in Htbl. apply Htbl. by apply nth_In.
  - left. by apply nth_overflow.
Qed.

Lemma fallback_scan tbl m s : forall fuel p (k : nat),
  Forall (fun t => t = 0 \/ t = 1) tbl ->
  (forall i : nat, (i < k)%nat -> nth (Z.to_nat (m (p + Z.of_nat i))) tbl 0 = 1) ->
  nth (Z.to_nat (m (p + Z.of_nat k))) tbl 0 = 0 ->
  (k / 4 < fuel)%nat ->
  FallbackStringSpanner.scan tbl m s p fuel = Some (p + Z.of_nat k - s).
Proof.
  induction fuel as [|fuel IH]; intros p k Htbl Hones Hzero Hfuel; [lia|].
  cbn [FallbackStringSpanner.scan]. cbv zeta.
  pose proof (flag_cases tbl (Z.to_nat (m p)) Htbl) as F0.
  pose proof (flag_cases tbl (Z.to_nat (m (p + 1))) Htbl) as F1.
  pose proof (flag_cases tbl (Z.to_nat (m (p + 2))) Htbl) as F2.
  pose proof (flag_cases tbl (Z.to_nat (m (p + 3))) Htbl) as F3.
  assert (forall i : nat, (i <= k)%nat -> (i < 4)%nat ->
            nth (Z.to_nat (m (p + Z.of_nat i))) tbl 0 = if (i <? k)%nat then 1 else 0) as Hat.
  { intros i Hik _. destruct (Nat.ltb_spec i k); [by apply Hones|].
    by replace i with k by lia. }
  destruct (Nat.lt_ge_cases k 4) as [Hk|Hk].
  - pose proof (Hat 0%nat) as H0. pose proof (Hat 1%nat) as H1. pose proof (Hat 2%nat) as H2.
    pose proof (Hat 3%nat) as H3. rewrite Z.add_0_r in H0.
    change (Z.of_nat 1) with 1 in H1. change (Z.of_nat 2) with 2 in H2.
    change (Z.of_nat 3) with 3 in H3.
    destruct k as [|[|[|[|k]]]]; [| | |  |lia].
    + rewrite H0 by lia. cbn [Nat.ltb Nat.leb].
      destruct (Z.eqb_spec 4 (0 + nth (Z.to_nat (m (p + 1))) tbl 0 +
                              nth (Z.to_nat (m (p + 2))) tbl 0 +
                              nth (Z.to_nat (m (p + 3))) tbl 0)); [lia|].
      cbn. f_equal; lia.
    + rewrite H0, H1 by lia. cbn [Nat.ltb Nat.leb].
      destruct (Z.eqb_spec 4 (1 + 0 + nth (Z.to_nat (m (p + 2))) tbl 0 +
                              nth (Z.to_nat (m (p + 3))) tbl 0)); [lia|].
      cbn. f_equal; lia.
    + rewrite H0, H1, H2 by lia. cbn [Nat.ltb Nat.leb].
      destruct (Z.eqb_spec 4 (1 + 1 + 0 + nth (Z.to_nat (m (p + 3))) tbl 0)); [lia|].
      cbn. f_equal; lia.
    + rewrite H0, H1, H2, H3 by lia. cbn. f_equal; lia.
  - rewrite <- (Z.add_0_r p) at 1.
    change 0 with (Z.of_nat 0) at 1. change 1 with (Z.of_nat 1) at 1.
    change 2 with (Z.of_nat 2) at 1. change 3 with (Z.of_nat 3) at 1.
    rewrite !Hones by lia. cbn [Z.add Pos.add Pos.succ Z.eqb Pos.eqb negb].
    rewrite (IH (p + 4) (k - 4)%nat Htbl).
    + f_equal; lia.
    + intros i Hi. replace (p + 4 + Z.of_nat i) with (p + Z.of_nat (4 + i)) by lia.
      apply Hones. lia.
    + replace (p + 4 + Z.of_nat (k - 4)) with (p + Z.of_nat k) by lia. done.
    + pose proof (Nat.div_mod_eq k 4). pose proof (Nat.div_mod_eq (k - 4) 4).
      pose proof (Nat.mod_upper_bound k 4). pose proof (Nat.mod_upper_bound (k - 4) 4). lia.
Qed.

End Scanners.

(** C8, as amended.  For a stop set of at most sixteen bytes, none NUL:
    the vectorized scan ([strcspn16], and the [StringSpanner] built from
    the same bytes) treats the sixteen bytes at the pointer as a string
    that its first NUL ends.  It returns the number of leading bytes that
    are not stop bytes when no NUL comes before the first stop byte of the
    chunk, and 16 when the chunk has no stop byte at all, or none before
    its first NUL; it returns 0 exactly when the byte at the pointer is a
    stop byte.  The portable scanner, with a table that its constructor
    built, reads on, four bytes an iteration, as long as the flags are
    set, and returns the offset of the first byte whose flag is zero,
    which need not lie among the first four. *)
Theorem scan_contract (m : memory) (buf : Z) (args : list byte) :
  Forall (fun x => x <> NUL) args -> (length args <= 16)%nat ->
  strcspn16 m buf args = Z.of_nat (span args (load m buf 16)) /\
  (Forall (fun x => x <> NUL)
     (take (leading args (load m buf 16)) (load m buf 16)) ->
   strcspn16 m buf args = Z.of_nat (leading args (load m buf 16))) /\
  (Exists (fun x => x = NUL)
     (take (leading args (load m buf 16)) (load m buf 16)) ->
   strcspn16 m buf args = 16) /\
  (strcspn16 m buf args = 0 <-> is_stop args (m buf) = true) /\
  (Forall (fun x => is_stop args x = false) (load m buf 16) ->
   strcspn16 m buf args = 16) /\
  (forall m0 charset,
     load m0 charset (S (length args)) = args ++ [NUL] ->
     StringSpanner.call (StringSpanner.create m0 charset) m buf = strcspn16 m buf args) /\
  (forall m0 charset c fuel0 tbl (k fuel : nat),
     FallbackStringSpanner.create m0 charset c fuel0 = Some tbl ->
     (forall i : nat, (i < k)%nat -> nth (Z.to_nat (m (buf + Z.of_nat i))) tbl 0 = 1) ->
     nth (Z.to_nat (m (buf + Z.of_nat k))) tbl 0 = 0 ->
     (k / 4 < fuel)%nat ->
     FallbackStringSpanner.call tbl m buf fuel = Some (Z.of_nat k)).
Proof.
  intros Hnz Hlen. pose proof (strcspn16_span m buf args Hnz Hlen) as Hspan.
  split; [done|]. split; [|split; [|split; [|split; [|split]]]].
  - intros Hall. rewrite Hspan. f_equal. by apply span_leading.
  - intros Hex. by rewrite Hspan, (span_nul _ _ Hex), load_length.
  - rewrite Hspan. change (load m buf 16) with (m buf :: load m (buf + 1) 15).
    rewrite <- (span_zero args (m buf) (load m (buf + 1) 15) Hnz). lia.
  - intros Hall. rewrite Hspan, (span_full _ _ Hall), load_length. done.
  - intros m0 charset Hl. unfold StringSpanner.call, strcspn16.
    by rewrite (StringSpanner_create m0 charset args).
  - intros m0 charset c fuel0 tbl k fuel Hcreate Hones Hzero Hfuel.
    unfold FallbackStringSpanner.call.
    rewrite (fallback_scan tbl m buf fuel buf k); [f_equal; lia|..|done]; [|done..].
    by eapply create_flags.
Qed.

(** ** [CsvCell::equals] *)

Lemma is_prefix_nil l : is_prefix [] l.
Proof. by exists l. Qed.

Lemma is_prefix_cons x bs y l : is_prefix (x :: bs) (y :: l) <-> x = y /\ is_prefix bs l.
Proof.
  split.
  - intros [rest Hr]. injection Hr as -> ->. split; [done|]. by exists rest.
  - intros [-> [rest ->]]. by exists rest.
Qed.

Lemma is_prefix_cons_nil x bs : ~ is_prefix (x :: bs) [].
Proof. by intros [rest Hr]. Qed.

Lemma strncmp_zero m (s : list byte) : forall n p q,
  Forall (fun x => x <> NUL) s ->
  load m q (S (length s)) = s ++ [NUL] ->
  strncmp m p q n = 0 <->
  is_prefix (load m p n) s \/ is_prefix (s ++ [NUL]) (load m p n).
Proof.
  induction s as [|x s IH]; intros n p q Hnz Hl.
  - cbn in Hl. injection Hl as Hq. destruct n as [|n].
    + cbn. split; [left; apply is_prefix_nil|done].
    + cbn [strncmp load app]. rewrite Hq.
      destruct (Z.eqb_spec (m p) NUL) as [Hp|Hp].
      * rewrite Hp. cbn. split; [|done]. intros _. right.
        apply is_prefix_cons. split; [done|apply is_prefix_nil].
      * split; [unfold NUL in *; lia|]. intros [Hpre|Hpre].
        -- by apply is_prefix_cons_nil in Hpre.
        -- apply is_prefix_cons in Hpre as [? _]. by subst.
  - apply Forall_cons in Hnz as [Hx Hnz]. cbn [length load app] in Hl.
    injection Hl as Hq Hl. destruct n as [|n].
    + cbn. split; [left; apply is_prefix_nil|done].
    + cbn [strncmp load app]. rewrite Hq.
      destruct (Z.eqb_spec (m p) x) as [Hp|Hp].
      * rewrite Hp. destruct (Z.eqb_spec x NUL); [done|].
        rewrite (IH n (p + 1) (q + 1) Hnz Hl), !is_prefix_cons. tauto.
      * split; [lia|]. rewrite !is_prefix_cons. intros [[? _]|[? _]]; by subst.
Qed.

(** C10, as amended.  [equals] compares the first [size] bytes of the
    cell with the argument, and no further than a NUL that both hold: it
    answers true exactly when the bytes of the cell are a prefix of the
    argument, the argument itself included, or when the cell begins with
    the whole argument followed by a NUL byte.  So a cell longer than the
    argument compares unequal provided that its byte at the length of the
    argument is not NUL. *)
Theorem equals_prefix (m : memory) (c : CsvCell.t) (str : Z) (s : list byte) :
  Forall (fun x => x <> NUL) s ->
  load m str (S (length s)) = s ++ [NUL] ->
  (CsvCell.equals m c str = true <->
   is_prefix (CsvCell.as_str m c) s \/ is_prefix (s ++ [NUL]) (CsvCell.as_str m c)) /\
  (CsvCell.as_str m c = s -> CsvCell.equals m c str = true) /\
  ((length s < length (CsvCell.as_str m c))%nat ->
   nth (length s) (CsvCell.as_str m c) 0 <> NUL ->
   CsvCell.equals m c str = false).
Proof.
  intros Hnz Hl.
  assert (CsvCell.equals m c str = true <->
          is_prefix (CsvCell.as_str m c) s \/ is_prefix (s ++ [NUL]) (CsvCell.as_str m c))
    as Hiff.
  { unfold CsvCell.equals, CsvCell.as_str.
    rewrite <- (strncmp_zero m s _ (CsvCell.ptr c) str Hnz Hl), Z.eqb_eq. split; congruence. }
  split; [done|]. split.
  - intros Heq. apply Hiff. left. rewrite Heq. exists []. by rewrite app_nil_r.
  - intros Hlen Hnth. apply not_true_is_false. rewrite Hiff. intros [[rest Hr]|[rest Hr]].
    + rewrite Hr, length_app in Hlen. lia.
    + rewrite Hr in Hnth. rewrite <- app_assoc in Hnth.
      rewrite app_nth2, Nat.sub_diag in Hnth by lia. by cbn in Hnth.
Qed.

(** * The claims at concrete inputs *)

(** C1.  The two rows read from a descriptor that delivers them at once,
    and from one that delivers them in two pieces, split after the first
    byte of the field [cd]: the second delivery is read as three rows,
    with a row made of an empty cell and [b] in the middle. *)
Theorem split_input_rows :
  CsvReader.read_rows 4 zeroed (buffered 0 [Bytes two_rows])
    = Ok [[[97]; [98]]; [[99; 100]; [101]]] /\
  CsvReader.read_rows 4 zeroed
      (buffered 0 [Bytes (take 5 two_rows); Bytes (drop 5 two_rows)])
    = Ok [[[97]; [98]]; [[]; [98]]; [[99; 100]; [101]]].
Proof. split; vm_compute; reflexivity. Qed.

(** The [shift] of [refill] is the number of bytes before the committed
    position, not the number after it. *)
Lemma refill_shift_consumed {C : Type} `{StreamCursor C} (r : CsvReader.t C) :
  CsvReader.p_ r < CsvReader.endp_ r ->
  CsvReader.endp_ r = buf (CsvReader.stream_ r) + size (CsvReader.stream_ r) ->
  buf (CsvReader.stream_ r) <= CsvReader.p_ r ->
  CsvReader.p_ r - buf (CsvReader.stream_ r) < 2 ^ 64 ->
  CsvReader.refill_shift r = CsvReader.p_ r - buf (CsvReader.stream_ r).
Proof.
  intros Hlt He Hb H64. unfold CsvReader.refill_shift.
  destruct (Z.ltb_spec (CsvReader.p_ r) (CsvReader.endp_ r)); [|lia].
  rewrite He. rewrite size_t_small by lia. lia.
Qed.

(** C2.  The same two pieces, after the first row was read: the parse of
    the second row fails with one byte, [c], between the committed
    position and the end of the window; [refill] asks for a shift of 4,
    the number of bytes already consumed; [more] answers true, and the new
    window begins with the last four bytes of the old one, three of them
    of the row already delivered, and not with [c] alone. *)
Theorem refill_shift_at_split :
  ('(_, m, r) ← CsvReader.read_row zeroed
                  (buffered 0 [Bytes (take 5 two_rows); Bytes (drop 5 two_rows)]);
   '(ok, r1) ← CsvReader.try_parse m r;
   '(rc, m2, r2) ← CsvReader.refill m r1;
   Ok (ok, CsvReader.endp_ r1 - CsvReader.p_ r1, CsvReader.refill_shift r1, rc,
       load m2 (CsvReader.p_ r2) (Z.to_nat (CsvReader.endp_ r2 - CsvReader.p_ r2))))
  = Ok (false, 1, 4, true, [44; 98; 10; 99; 100; 44; 101; 10]).
Proof. vm_compute. reflexivity. Qed.

(** C6.  The row [a,b] ended by carriage return and line feed is read as
    three cells: [a], [b] and an empty one.  The carriage return ends the
    cell [b]; the line feed after it is met at [cell_start], where it
    opens an unquoted cell of no bytes. *)
Theorem crlf_row_cells :
  shown (CsvReader.read_row (file 1000 crlf_row) (mapped 1000 crlf_row))
    = Ok (true, [[97]; [98]; []]) /\
  (CsvReader.read_row (file 1000 crlf_row) (mapped 1000 crlf_row)
     ≫= fun '(_, _, r) => Ok (CsvCursor.count (CsvReader.row_ r))) = Ok 3.
Proof. split; vm_compute; reflexivity. Qed.

(** Against C3 as stated: a row of two unquoted fields, the first of which
    holds a NUL byte, followed by a second row.  There is no quote,
    carriage return or line feed in its fields; [read_row] succeeds with
    one cell, which runs to the end of the second row. *)
Lemma unquoted_row_with_nul :
  Forall (Forall (fun x => x <> QUOTE /\ x <> CR /\ x <> LF /\ x <> COMMA)) nul_fields /\
  load (file 1000 nul_input) 1000 (S (length (join COMMA nul_fields)))
    = join COMMA nul_fields ++ [LF] /\
  shown (CsvReader.read_row (file 1000 nul_input) (mapped 1000 nul_input))
    = Ok (true, [[97; 0; 44; 98; 10] ++ replicate 14 99]) /\
  [[97; 0; 44; 98; 10] ++ replicate 14 99] <> nul_fields.
Proof.
  split; [by repeat constructor|]. split; [vm_compute; reflexivity|].
  split; [vm_compute; reflexivity|]. vm_compute. discriminate.
Qed.

(** Against C4 as stated: the first [read_row] on a descriptor that ends
    inside a quoted field, and on a descriptor that is at its end.  In
    the former [refill] answers true and the retried parse fails; in the
    latter [refill] answers false.  The caller gets false from both. *)
Lemma malformed_as_end_of_stream :
  answer (CsvReader.read_row zeroed (buffered 0 [Bytes open_quote])) = Ok false /\
  answer (CsvReader.read_row zeroed (buffered 0 [])) = Ok false /\
  ('(ok, r1) ← CsvReader.try_parse zeroed (buffered 0 [Bytes open_quote]);
   '(rc, m2, r2) ← CsvReader.refill zeroed r1;
   '(ok2, _) ← CsvReader.try_parse m2 r2;
   Ok (ok, rc, load m2 (CsvReader.p_ r2) 3, ok2))
  = Ok (false, true, open_quote, false) /\
  ('(ok, r1) ← CsvReader.try_parse zeroed (buffered 0 []);
   '(rc, _, _) ← CsvReader.refill zeroed r1;
   Ok (ok, rc))
  = Ok (false, false).
Proof. repeat split; vm_compute; reflexivity. Qed.

(** C5.  A row of 257 fields of one byte, in a file mapped at address
    1000, whose window ends at 1514.  [read_row] returns true and reports
    nothing.  The 257th cell, the byte at 1512, is stored in the slot
    after the last, which lies on [count] and [endp_]: the array still
    has its 256 cells, [count] is 1513, the low half of the address and
    one more, and not 257, and the end of the window is 1, the size of
    that cell.  In a file mapped at 139640315072512, where the low half
    of the address of that cell has its top bit set, [count] is
    negative. *)
Theorem wide_row_overrun :
  length wide_fields = 257%nat /\
  load (file 1000 wide_row) 1000 (length wide_row) = join COMMA wide_fields ++ [LF] /\
  CsvReader.endp_ (mapped 1000 wide_row) = 1514 /\
  (CsvReader.read_row (file 1000 wide_row) (mapped 1000 wide_row)
     ≫= fun '(ok, _, r) =>
          Ok (ok, length (CsvCursor.cells (CsvReader.row_ r)),
              CsvCursor.count (CsvReader.row_ r), CsvReader.endp_ r))
  = Ok (true, 256%nat, 1513, 1) /\
  (CsvReader.read_row (file 139640315072512 wide_row) (mapped 139640315072512 wide_row)
     ≫= fun '(ok, _, r) =>
          Ok (ok, length (CsvCursor.cells (CsvReader.row_ r)),
              CsvCursor.count (CsvReader.row_ r), CsvReader.endp_ r))
  = Ok (true, 256%nat, -1956621823, 1).
Proof. repeat split; vm_compute; reflexivity. Qed.

(** C9.  The same row, and a row of 258 such fields, whose window ends
    at 1516.  The parse of the former succeeds and commits 1514; the
    parse of the latter fails, at the first [PREAMBLE] after the 257th
    store, and leaves the committed position at 1000.  Both leave 1 as
    the end of the window, below the committed position. *)
Theorem committed_past_end :
  (CsvReader.try_parse (file 1000 wide_row) (mapped 1000 wide_row)
     ≫= fun '(ok, r) => Ok (ok, CsvReader.p_ r, CsvReader.endp_ r))
  = Ok (true, 1514, 1) /\
  CsvReader.p_ (mapped 1000 wider_row) = 1000 /\
  CsvReader.endp_ (mapped 1000 wider_row) = 1516 /\
  (CsvReader.try_parse (file 1000 wider_row) (mapped 1000 wider_row)
     ≫= fun '(ok, r) => Ok (ok, CsvReader.p_ r, CsvReader.endp_ r))
  = Ok (false, 1000, 1).
Proof. repeat split; vm_compute; reflexivity. Qed.

(** Against C8 as stated.  The vectorized scan at a NUL byte that a comma
    follows: one leading byte is not a stop byte, and 16 is returned.  The
    portable scan, with the table built for the stop set (flags cleared
    for the stop bytes), at six letters that a comma follows: the first
    four bytes hold no stop byte, and 6 is returned, not 4. *)
Lemma scan_beyond_contract :
  leading [COMMA; CR; LF] (load (file 0 [0; 44]) 0 16) = 1%nat /\
  strcspn16 (file 0 [0; 44]) 0 [COMMA; CR; LF] = 16 /\
  leading [COMMA; CR; LF] (load (file 0 [97; 98; 99; 100; 101; 102; 44]) 0 4) = 4%nat /\
  (tbl ← FallbackStringSpanner.create (file 100 [44; 13; 10]) 100 false 8;
   FallbackStringSpanner.call tbl (file 0 [97; 98; 99; 100; 101; 102; 44]) 0 8)
  = Some 6.
Proof. repeat split; vm_compute; reflexivity. Qed.

(** Against C10 as stated: a cell of three bytes, [a], NUL, [b], and the
    argument [a], which is shorter than the cell: [equals] answers true. *)
Lemma equals_shorter_argument :
  let m := store (file 0 [97; 0; 98]) 10 [97; 0] in
  let c := CsvCell.Build 0 3 in
  CsvCell.as_str m c = [97; 0; 98] /\
  load m 10 2 = [97; NUL] /\
  CsvCell.equals m c 10 = true.
Proof. repeat split; vm_compute; reflexivity. Qed.

(** * The theorems at concrete inputs *)

(** [unquoted_row_cells] at the row [a,b] in a mapped file. *)
Lemma unquoted_row_cells_witness :
  exists r',
    CsvReader.read_row (file 1000 ab_row) (mapped 1000 ab_row)
      = Ok (true, file 1000 ab_row, r') /\
    CsvCursor.count (CsvReader.row_ r') = Z.of_nat (length ab_fields) /\
    CsvReader.row (file 1000 ab_row) r' = ab_fields /\
    join COMMA (CsvReader.row (file 1000 ab_row) r') = join COMMA ab_fields /\
    CsvReader.p_ r'
      = CsvReader.p_ (mapped 1000 ab_row) + Z.of_nat (length (join COMMA ab_fields)) + 1.
Proof.
  apply (unquoted_row_cells (file 1000 ab_row) (mapped 1000 ab_row) ab_fields).
  - unfold Wf.reader. cbn. repeat split; lia.
  - discriminate.
  - unfold CsvCursor.capacity, ab_fields. cbn. lia.
  - repeat constructor; discriminate.
  - vm_compute. reflexivity.
  - cbn. lia.
Defined.

(** [doubled_quotes_verbatim] at a mapped file that holds the row and
    nothing else. *)
Lemma doubled_quotes_verbatim_witness :
  (exists r',
     CsvReader.read_row (file 1000 quoted_row) (mapped 1000 quoted_row)
       = Ok (true, file 1000 quoted_row, r') /\
     CsvCursor.count (CsvReader.row_ r') = 1 /\
     CsvReader.row (file 1000 quoted_row) r' = [quoted_cell] /\
     CsvReader.p_ r' = CsvReader.p_ (mapped 1000 quoted_row) + 17) /\
  (forall p start cell row0,
     p < CsvReader.endp_ (mapped 1000 quoted_row) ->
     file 1000 quoted_row p <> COMMA -> file 1000 quoted_row p <> LF ->
     step (file 1000 quoted_row) (CsvReader.endp_ (mapped 1000 quoted_row))
       (in_escape_or_end_of_cell, p, start, cell, row0)
     = CsvReader.Goto in_quoted_cell (p + 1) start cell row0
         (CsvReader.endp_ (mapped 1000 quoted_row))).
Proof.
  apply (doubled_quotes_verbatim (file 1000 quoted_row) (mapped 1000 quoted_row)).
  - unfold Wf.reader. cbn. repeat split; lia.
  - vm_compute. reflexivity.
  - cbn. lia.
Defined.

(** [scan_contract] at two letters that a comma follows. *)
Lemma scan_contract_witness :
  strcspn16 (file 0 [97; 98; 44]) 0 [COMMA; CR; LF] = 2.
Proof.
  destruct (scan_contract (file 0 [97; 98; 44]) 0 [COMMA; CR; LF]) as (_ & Hlead & _).
  - repeat constructor; discriminate.
  - cbn. lia.
  - apply Hlead. vm_compute. repeat constructor; discriminate.
Defined.

(** [equals_prefix] at the cell [ab] and the argument [abc]. *)
Lemma equals_prefix_witness :
  CsvCell.equals (store (file 0 [97; 98]) 10 [97; 98; 99; 0]) (CsvCell.Build 0 2) 10 = true.
Proof.
  destruct (equals_prefix (store (file 0 [97; 98]) 10 [97; 98; 99; 0])
              (CsvCell.Build 0 2) 10 [97; 98; 99]) as (Hiff & _).
  - repeat constructor; discriminate.
  - vm_compute. reflexivity.
  - apply Hiff. left. exists [99]. vm_compute. reflexivity.
Defined.

(** * More of the code *)

(** ** [CsvCursor::by_value] *)

Lemma by_value_from_spec m row value : forall todo i,
  (i + todo <= length (CsvCursor.cells row))%nat ->
  by_value_from m row value i todo =
  Ok (match list_find (fun t => value = t)
              (map (CsvCell.as_str m) (take todo (drop i (CsvCursor.cells row)))) with
      | Some (j, _) => Some (i + j)%nat
      | None => None
      end).
Proof.
  induction todo as [|todo IH]; intros i Hlen; [done|].
  cbn [by_value_from].
  destruct (lookup_lt_is_Some_2 (CsvCursor.cells row) i ltac:(lia)) as [c Hc].
  rewrite Hc, (drop_S _ c i Hc). cbn [firstn map list_find].
  destruct (decide (value = CsvCell.as_str m c)) as [Heq|Hne].
  - rewrite bool_decide_eq_true_2 by done. cbn. do 2 f_equal. lia.
  - rewrite bool_decide_eq_false_2 by done. rewrite IH by lia.
    destruct (list_find _ _) as [[j t]|]; cbn; [|done]. do 2 f_equal. lia.
Qed.

(** [by_value] finds the first cell of the row whose bytes are exactly
    [value]: it answers with the least index at which the contents of the
    row hold [value], and with false when they hold it nowhere. *)
Theorem by_value_first (m : memory) (row : CsvCursor.t) (value : list byte) :
  (Z.to_nat (CsvCursor.count row) <= length (CsvCursor.cells row))%nat ->
  (exists found, by_value m row value = Ok found) /\
  (forall i, by_value m row value = Ok (Some i) <->
     CsvCursor.contents m row !! i = Some value /\
     forall j, (j < i)%nat -> CsvCursor.contents m row !! j <> Some value) /\
  (by_value m row value = Ok None <-> ~ In value (CsvCursor.contents m row)).
Proof.
  intros Hlen. unfold by_value. rewrite by_value_from_spec by lia.
  rewrite drop_0. fold (CsvCursor.contents m row).
  split; [by eexists|]. split.
  - intros i. destruct (list_find _ _) as [[j t]|] eqn:Hfind.
    + apply list_find_Some in Hfind as (Hj & <- & Hbefore). cbn [Nat.add]. split.
      * intros [= <-]. split; [done|]. intros k Hk Hv.
        by apply (Hbefore k value Hv Hk).
      * intros [Hi Hmin]. do 2 f_equal.
        destruct (Nat.lt_trichotomy i j) as [Hlt|[->|Hgt]]; [|done|].
        -- exfalso. by apply (Hbefore i value Hi Hlt).
        -- exfalso. by apply (Hmin j Hgt).
    + split; [done|]. intros [Hi _]. exfalso.
      rewrite list_find_None, List.Forall_forall in Hfind.
      apply (Hfind value); [|done]. apply list_elem_of_In. by eapply list_elem_of_lookup_2.
  - destruct (list_find _ _) as [[j t]|] eqn:Hfind.
    + split; [done|]. intros Hnot. exfalso. apply Hnot.
      apply list_find_Some in Hfind as (Hj & <- & _).
      apply list_elem_of_In. by eapply list_elem_of_lookup_2.
    + split; [|done]. intros _ Hin.
      rewrite list_find_None, List.Forall_forall in Hfind. by apply (Hfind value).
Qed.

(** ** What [try_parse] needs and what it leaves *)

Section LoopFacts.
Variables (m : memory) (endp : Z).

Local Abbreviation run := (run m endp).
Local Abbreviation step := (step m endp).

Lemma step_return_LF c p' row e :
  step c = CsvReader.Return (Some p') row e -> m (p' - 1) = LF.
Proof.
  destruct c as [[[[l0 p0] start0] cell0] row0]. unfold step, CsvReader.parse_step.
  destruct (endp <=? p0); [done|].
  destruct l0; cbv zeta; repeat case_match; intros ?; simplify_eq;
    replace (p0 + 1 - 1) with p0 by lia; by apply Z.eqb_eq.
Qed.




End LoopFacts.

Lemma run_return_LF m f : forall endp c p' row e,
  run m endp f c = Ok (Some p', row, e) -> m (p' - 1) = LF.
Proof.
  induction f as [|f IH]; intros endp c p' row e Hr.
  - by destruct c as [[[[l p] start] cell] row0].
  - rewrite run_S in Hr. destruct (step m endp c) eqn:Hs; [| |done].
    + by eapply IH.
    + injection Hr as -> <- <-. by eapply step_return_LF.
Qed.


Section ParseFacts.
Context {C : Type} `{StreamCursor C}.

Import CsvReader.

(** A row ends at a line feed, and only there: when [try_parse] returns
    true the byte before the new committed position is a line feed of the
    window, and a window that holds no line feed gives no row. *)
Theorem row_ends_at_line_feed (m : memory) (r : t C) :
  (forall r', try_parse m r = Ok (true, r') ->
     m (p_ r' - 1) = LF /\ p_ r <= p_ r' - 1 < endp_ r) /\
  ((forall a, p_ r <= a < endp_ r -> m a <> LF) ->
   forall r', try_parse m r <> Ok (true, r')).
Proof.
  assert (forall r', try_parse m r = Ok (true, r') ->
            m (p_ r' - 1) = LF /\ p_ r <= p_ r' - 1 < endp_ r) as Hend.
  { intros r' Htp. pose proof (try_parse_frame _ _ _ _ Htp) as (_ & Hp).
    split; [|lia]. rewrite try_parse_unfold in Htp.
    destruct (run _ _ _ _) as [[[[p'|] row] e]| |] eqn:Hrun; [|done..].
    injection Htp as <-. cbn. by eapply run_return_LF. }
  split; [done|]. intros Hno r' Htp. apply Hend in Htp as [Hlf Hin].
  by apply (Hno _ Hin).
Qed.


End ParseFacts.

(** ** Cells are views of the bytes of their row *)

Section CellViews.
Variables (m : memory) (endp p0 : Z).
Hypothesis Hp0 : 0 <= p0.
Hypothesis H64 : endp < 2 ^ 64.

Local Abbreviation run := (run m endp).
Local Abbreviation step := (step m endp).







End CellViews.


(** ** Bytes past the end of the window do not matter *)

Lemma span_app_agree args a b b' :
  length b = length b' ->
  span args (a ++ b) = span args (a ++ b') \/
  ((length a <= span args (a ++ b))%nat /\ (length a <= span args (a ++ b'))%nat).
Proof.
  intros Hlen. induction a as [|x a IH]; [right; simpl; lia|].
  cbn [app span length]. rewrite !length_app, Hlen.
  destruct (x =? NUL); [by left|]. destruct (is_stop args x); [by left|].
  destruct IH as [->|[? ?]]; [by left|right; lia].
Qed.

(** Two memories that hold the same window give a scan at [p] the same
    answer, or two answers that both lead past the end of the window. *)
Lemma strcspn16_agree m m' p endp args :
  Forall (fun x => x <> NUL) args -> (length args <= 16)%nat ->
  (forall a, p <= a < endp -> m a = m' a) ->
  strcspn16 m p args = strcspn16 m' p args \/
  (endp - p <= strcspn16 m p args /\ endp - p <= strcspn16 m' p args).
Proof.
  intros Hnz Hlen Hm. rewrite !strcspn16_span by done.
  destruct (Z.le_gt_cases (p + 16) endp) as [Hfar|Hnear].
  - left. do 2 f_equal. apply load_ext. intros a Ha. apply Hm. lia.
  - destruct (Z.le_gt_cases endp p) as [Hle|Hlt].
    + right. lia.
    + set (k := Z.to_nat (endp - p)).
      replace 16%nat with (k + (16 - k))%nat by lia. rewrite !load_app.
      rewrite (load_ext m m' p k) by (intros a Ha; apply Hm; lia).
      destruct (span_app_agree args (load m' p k)
                  (load m (p + Z.of_nat k) (16 - k)) (load m' (p + Z.of_nat k) (16 - k)))
        as [->|[H1 H2]]; [by rewrite !load_length|by left|].
      rewrite load_length in H1, H2. right. lia.
Qed.

Section WindowOnly.
Variables (m m' : memory) (endp : Z).

(** One iteration in either memory: the same, or two jumps past the end
    of the window that leave the row as it was. *)
Lemma step_agree c :
  (forall a, c.1.1.1.2 <= a < endp -> m a = m' a) ->
  step m endp c = step m' endp c \/
  exists l1 p1 s1 c1 l2 p2 s2 c2,
    step m endp c = CsvReader.Goto l1 p1 s1 c1 c.2 endp /\
    step m' endp c = CsvReader.Goto l2 p2 s2 c2 c.2 endp /\
    endp <= p1 /\ endp <= p2.
Proof.
  destruct c as [[[[l p] start] cell] row]. cbn [fst snd]. intros Hm.
  unfold step, CsvReader.parse_step.
  destruct (Z.leb_spec endp p) as [|Hlt]; [by left|].
  rewrite <- (Hm p) by lia.
  destruct l; cbv zeta; [by left| | |by left].
  - destruct stop_set_quoted as [Hnz Hlen].
    pose proof (strcspn16_range m p [QUOTE] Hnz Hlen).
    pose proof (strcspn16_range m' p [QUOTE] Hnz Hlen).
    destruct (strcspn16_agree m m' p endp [QUOTE] Hnz Hlen Hm) as [->|[H1 H2]]; [by left|].
    right.
    destruct (Z.eqb_spec (strcspn16 m p [QUOTE]) 16),
             (Z.eqb_spec (strcspn16 m' p [QUOTE]) 16);
      do 8 eexists; (split; [reflexivity|]); (split; [reflexivity|]); lia.
  - destruct stop_set_unquoted as [Hnz Hlen].
    destruct (strcspn16_agree m m' p endp [COMMA; CR; LF] Hnz Hlen Hm) as [->|[H1 H2]];
      [by left|].
    right.
    destruct (Z.eqb_spec (strcspn16 m p [COMMA; CR; LF]) 0); [lia|].
    destruct (Z.eqb_spec (strcspn16 m' p [COMMA; CR; LF]) 0); [lia|].
    cbn [negb]. do 8 eexists. (split; [reflexivity|]); (split; [reflexivity|]); lia.
Qed.

Lemma run_agree f : forall c,
  ordered c -> (forall a, c.1.1.1.2 <= a < endp -> m a = m' a) ->
  run m endp f c = run m' endp f c.
Proof.
  induction f as [|f IH]; intros c Ho Hm.
  - by destruct c as [[[[l p] start] cell] row].
  - destruct (step_agree c Hm) as [Heq|(l1 & p1 & s1 & c1 & l2 & p2 & s2 & c2 & H1 & H2 & Hp1 & Hp2)].
    + rewrite !run_S, <- Heq. destruct (step m endp c) eqn:Hs; [|done..].
      destruct (step_endp _ _ _ _ _ _ _ _ _ Hs Ho) as [->|(_ & Hle & _)].
      * apply IH; [by eapply step_ordered|]. cbn [fst snd]. intros a Ha. apply Hm.
        apply step_forward in Hs. lia.
      * destruct f as [|f]; [done|]. by rewrite !run_past_end.
    + rewrite !run_S, H1, H2. destruct f as [|f]; [done|].
      by rewrite !run_past_end.
Qed.

End WindowOnly.

(** Whatever lies past the end of the window, which the 16-byte loads of
    the scanner may read, has no part in the answer of [try_parse] nor in
    the row it leaves: two memories that agree on the window give the
    same outcome. *)
Theorem window_only {C : Type} `{StreamCursor C} (m m' : memory) (r : CsvReader.t C) :
  (forall a, CsvReader.p_ r <= a < CsvReader.endp_ r -> m a = m' a) ->
  CsvReader.try_parse m r = CsvReader.try_parse m' r.
Proof.
  intros Hm. rewrite !try_parse_unfold.
  by rewrite (run_agree m m' (CsvReader.endp_ r)).
Qed.

(** ** Rows of bare and quoted fields *)

Section Rows.
Variables (m : memory) (endp : Z).

Local Abbreviation step := (step m endp).
Local Abbreviation reaches := (reaches m endp).
Local Abbreviation returns := (returns m endp).

(** A field at [p], bare or quoted, ended by [t]: its cell is stored, and
    the loop goes on to the next field after a comma and returns after a
    line feed. *)
Lemma field_parsed f t p start cell row :
  field_ok f -> t = COMMA \/ t = LF ->
  load m p (S (length (written f))) = written f ++ [t] ->
  0 <= p -> p + Z.of_nat (length (written f)) < endp -> endp < 2 ^ 64 ->
  (cell < CsvCursor.capacity)%nat -> 0 <= CsvCursor.count row < 2 ^ 31 - 1 ->
  let row' :=
    {| CsvCursor.cells := <[cell := field_cell p f]> (CsvCursor.cells row);
       CsvCursor.count := CsvCursor.count row + 1 |} in
  if t =? LF
  then returns (cell_start, p, start, cell, row)
         (Ok (Some (p + Z.of_nat (length (written f)) + 1), row', endp))
  else exists start',
         reaches (cell_start, p, start, cell, row)
           (cell_start, p + Z.of_nat (length (written f)) + 1, start', S cell, row').
Proof.
  intros Hok Ht Hl Hp Hend H64 Hcell Hcount row'. destruct f as [bs|bs]; cbn [written] in *.
  - destruct (unquoted_field m endp bs t p start cell row Hok Ht Hl Hp Hend H64 Hcell Hcount)
      as [Hreach Hstep].
    destruct (t =? LF).
    + eapply reaches_returns; [exact Hreach|]. by apply returns_step.
    + exists p. eapply reaches_trans; [exact Hreach|]. by apply reaches_step.
  - cbn [length] in *.
    assert (m p = QUOTE /\ load m (p + 1) (S (length bs)) = bs ++ [QUOTE] /\
            m (p + Z.of_nat (length bs) + 2) = t) as (Hq & Hbs & Hmt).
    { replace (S (S (length (bs ++ [QUOTE]))))
        with (length ([QUOTE] ++ (bs ++ [QUOTE]) ++ [t])) in Hl
        by (rewrite !length_app; simpl; lia).
      change ((QUOTE :: bs ++ [QUOTE]) ++ [t]) with ([QUOTE] ++ (bs ++ [QUOTE]) ++ [t]) in Hl.
      apply load_eq_app in Hl as [Hl0 Hl]. apply load_eq_app in Hl as [Hl1 Hl2].
      cbn in Hl0. injection Hl0 as Hq. cbn [length Z.of_nat Pos.of_succ_nat] in Hl1, Hl2.
      rewrite length_app in Hl1, Hl2. cbn [length] in Hl1, Hl2.
      rewrite Nat.add_1_r in Hl1. split; [done|]. split; [done|].
      cbn in Hl2. injection Hl2 as <-. f_equal. lia. }
    rewrite length_app in Hend. cbn [length] in Hend.
    assert (reaches (cell_start, p, start, cell, row)
              (in_escape_or_end_of_cell, p + Z.of_nat (length bs) + 2, p + 1, cell, row))
      as Hreach.
    { eapply reaches_trans.
      - apply reaches_step. unfold step, CsvReader.parse_step.
        destruct (Z.leb_spec endp p); [lia|]. by rewrite Hq.
      - eapply reaches_trans; [apply (quoted_scan m endp bs); [done..|lia]|].
        apply reaches_eq. lia. }
    assert (size_t (p + Z.of_nat (length bs) + 2 - (p + 1) - 1) = Z.of_nat (length bs))
      as Hsize by (rewrite size_t_small by lia; lia).
    replace (S (length (bs ++ [QUOTE]))) with (length bs + 2)%nat
      by (rewrite length_app; simpl; lia).
    replace (p + Z.of_nat (length bs + 2) + 1) with (p + Z.of_nat (length bs) + 2 + 1) by lia.
    destruct Ht as [-> | ->]; cbn [Z.eqb Pos.eqb COMMA LF].
    + exists (p + 1). eapply reaches_trans; [exact Hreach|]. apply reaches_step.
      unfold step, CsvReader.parse_step.
      destruct (Z.leb_spec endp (p + Z.of_nat (length bs) + 2)); [lia|].
      rewrite Hmt. cbn [Z.eqb Pos.eqb COMMA]. rewrite store_cell_inside by done.
      unfold CsvReader.incr_count. cbn [CsvCursor.cells CsvCursor.count].
      rewrite int_small by lia. by rewrite Hsize.
    + eapply reaches_returns; [exact Hreach|]. apply returns_step.
      unfold step, CsvReader.parse_step.
      destruct (Z.leb_spec endp (p + Z.of_nat (length bs) + 2)); [lia|].
      rewrite Hmt. cbn [Z.eqb Pos.eqb COMMA LF]. rewrite store_cell_inside by done.
      unfold CsvReader.incr_count. cbn [CsvCursor.cells CsvCursor.count].
      rewrite int_small by lia. by rewrite Hsize.
Qed.

(** A row, from its first field to its line feed. *)
Lemma row_parsed fs : forall p start cell row,
  fs <> [] -> Forall field_ok fs ->
  load m p (length (line fs)) = line fs ->
  0 <= p -> p + Z.of_nat (length (line fs)) <= endp -> endp < 2 ^ 64 ->
  (cell + length fs <= CsvCursor.capacity)%nat ->
  0 <= CsvCursor.count row -> CsvCursor.count row + Z.of_nat (length fs) < 2 ^ 31 ->
  returns (cell_start, p, start, cell, row)
    (Ok (Some (p + Z.of_nat (length (line fs))),
         {| CsvCursor.cells := put_cells (CsvCursor.cells row) cell (field_cells p fs);
            CsvCursor.count := CsvCursor.count row + Z.of_nat (length fs) |},
         endp)).
Proof.
  unfold line.
  induction fs as [|f rest IH];
    intros p start cell row Hne Hok Hl Hp Hend H64 Hcap Hc0 Hc1; [done|].
  apply Forall_cons in Hok as [Hf Hrest].
  destruct rest as [|f2 rest].
  - cbn [map join length] in *. rewrite length_app in *. cbn [length] in *.
    rewrite Nat.add_1_r in Hl.
    pose proof (field_parsed f LF p start cell row Hf ltac:(by right) Hl Hp ltac:(lia) H64
                  ltac:(lia) ltac:(lia)) as Hret.
    cbn [Z.eqb Pos.eqb LF] in Hret. eapply returns_eq; [exact Hret|].
    cbn [field_cells put_cells]. do 4 f_equal. lia.
  - remember (f2 :: rest) as fs eqn:Hfs.
    assert (join COMMA (map written (f :: fs)) =
            written f ++ COMMA :: join COMMA (map written fs)) as Hj by (by subst fs).
    rewrite Hj in *. clear Hj. set (J := join COMMA (map written fs)) in *.
    replace ((written f ++ COMMA :: J) ++ [LF]) with ((written f ++ [COMMA]) ++ J ++ [LF]) in *
      by (by rewrite <- !app_assoc).
    apply load_eq_app in Hl as [Hl1 Hl2].
    rewrite !length_app in *. cbn [length] in *. rewrite Nat.add_1_r in Hl1.
    destruct (field_parsed f COMMA p start cell row Hf ltac:(by left) Hl1 Hp
                ltac:(lia) H64 ltac:(lia) ltac:(lia)) as [start' Hreach].
    eapply reaches_returns; [exact Hreach|]. eapply returns_eq.
    + apply IH; [by subst fs|done| |lia| |done|lia|cbn [CsvCursor.count]; lia|
                 cbn [CsvCursor.count]; lia].
      * rewrite <- Hl2. f_equal. lia.
      * lia.
    + cbn [field_cells put_cells CsvCursor.cells CsvCursor.count length].
      do 3 f_equal; [f_equal; lia|f_equal; lia].
Qed.

(** The cells of a row, read back from memory, are the texts of its
    fields. *)
Lemma as_str_field_cells fs : forall p,
  load m p (length (join COMMA (map written fs))) = join COMMA (map written fs) ->
  map (CsvCell.as_str m) (field_cells p fs) = map text fs.
Proof.
  induction fs as [|f rest IH]; intros p Hl; [done|].
  cbn [field_cells map].
  assert (load m p (length (written f)) = written f /\
          (rest <> [] ->
           load m (p + Z.of_nat (length (written f)) + 1)
             (length (join COMMA (map written rest))) = join COMMA (map written rest)))
    as [Hf Hrest].
  { destruct rest as [|f2 rest]; [by cbn in Hl|].
    remember (f2 :: rest) as fs eqn:Hfs.
    assert (join COMMA (map written (f :: fs)) =
            written f ++ [COMMA] ++ join COMMA (map written fs)) as Hj by (by subst fs).
    rewrite Hj in Hl. apply load_eq_app in Hl as [Hl1 Hl2].
    apply load_eq_app in Hl2 as [_ Hl2]. split; [done|]. intros _. exact Hl2. }
  f_equal.
  - unfold CsvCell.as_str. destruct f as [bs|bs]; cbn [field_cell CsvCell.ptr CsvCell.size text].
    + by rewrite Nat2Z.id.
    + rewrite Nat2Z.id. cbn [written] in Hf.
      replace (length (QUOTE :: bs ++ [QUOTE])) with (length ([QUOTE] ++ bs ++ [QUOTE])) in Hf
        by done.
      change (QUOTE :: bs ++ [QUOTE]) with ([QUOTE] ++ bs ++ [QUOTE]) in Hf.
      apply load_eq_app in Hf as [_ Hf]. by apply load_eq_app in Hf as [Hf _].
  - destruct rest as [|f2 rest]; [done|]. by apply IH, Hrest.
Qed.

Lemma field_cells_length p fs : length (field_cells p fs) = length fs.
Proof. revert p; induction fs as [|f rest IH]; intros p; simpl; [done|]. by rewrite IH. Qed.

End Rows.

Section RowsRead.
Context {C : Type} `{StreamCursor C}.

Import CsvReader.

(** The reader after a row [fs] that began at the committed position. *)
Lemma try_parse_line (m : memory) (r : t C) (fs : list field) :
  Wf.reader r -> row_ok fs ->
  load m (p_ r) (length (line fs)) = line fs ->
  p_ r + Z.of_nat (length (line fs)) <= endp_ r ->
  exists r',
    try_parse m r = Ok (true, r') /\
    stream_ r' = stream_ r /\ endp_ r' = endp_ r /\
    p_ r' = p_ r + Z.of_nat (length (line fs)) /\
    CsvCursor.count (row_ r') = Z.of_nat (length fs) /\
    row m r' = map text fs /\
    Wf.reader r'.
Proof.
  intros (Hcells & Hp & H64) (Hne & Hlen & Hok) Hl Hend.
  pose proof (row_parsed m (endp_ r) fs (p_ r) (p_ r) O
                {| CsvCursor.cells := CsvCursor.cells (row_ r); CsvCursor.count := 0 |}
                Hne Hok Hl ltac:(lia) Hend H64 ltac:(lia) ltac:(done)
                ltac:(cbn [CsvCursor.count]; unfold CsvCursor.capacity in Hlen; lia))
    as Hret.
  apply try_parse_returns in Hret. cbv beta iota in Hret.
  eexists. split; [exact Hret|]. cbn [stream_ endp_ p_ row_ CsvCursor.count CsvCursor.cells].
  split; [done|]. split; [done|]. split; [done|]. split; [lia|]. split.
  - unfold row, CsvCursor.contents. cbn [row_ CsvCursor.cells CsvCursor.count].
    rewrite Z.add_0_l, Nat2Z.id. rewrite <- (field_cells_length (p_ r) fs) at 1.
    pose proof (take_put_cells (CsvCursor.cells (row_ r)) O (field_cells (p_ r) fs)) as Ht.
    cbn [Nat.add take app] in Ht. rewrite Ht by (rewrite field_cells_length; lia).
    apply as_str_field_cells. unfold line in Hl.
    by apply load_eq_app in Hl as [Hl _].
  - unfold Wf.reader. cbn [row_ CsvCursor.cells endp_ p_].
    rewrite put_cells_length. repeat split; lia.
Qed.

(** A window that holds the rows [rows] and nothing after them: as many
    calls of [read_row] deliver them, and leave the window exhausted. *)
Lemma read_rows_window (m : memory) (rows : list (list field)) : forall (k : nat) (r : t C),
  Wf.reader r -> Forall row_ok rows ->
  load m (p_ r) (length (concat (map line rows))) = concat (map line rows) ->
  p_ r + Z.of_nat (length (concat (map line rows))) <= endp_ r ->
  exists r_end,
    Wf.reader r_end /\ stream_ r_end = stream_ r /\ endp_ r_end = endp_ r /\
    p_ r_end = p_ r + Z.of_nat (length (concat (map line rows))) /\
    read_rows (length rows + k) m r =
    (rest ← read_rows k m r_end; Ok (map (map text) rows ++ rest)).
Proof.
  induction rows as [|fs rows IH]; intros k r Hwf Hok Hl Hend.
  - exists r. cbn [map concat length Nat.add app] in *.
    split; [done|]. split; [done|]. split; [done|]. split; [lia|].
    by destruct (read_rows k m r).
  - apply Forall_cons in Hok as [Hfs Hok].
    cbn [map concat] in Hl, Hend. apply load_eq_app in Hl as [Hl1 Hl2].
    rewrite length_app in Hend.
    destruct (try_parse_line m r fs Hwf Hfs Hl1 ltac:(lia))
      as (r1 & Htp & Hs1 & He1 & Hp1 & _ & Hrow & Hwf1).
    destruct (IH k r1 Hwf1 Hok) as (r_end & Hwfe & Hse & Hee & Hpe & Hrest).
    { by rewrite Hp1. }
    { rewrite Hp1, He1. lia. }
    exists r_end. split; [done|]. split; [congruence|]. split; [congruence|].
    split; [cbn [map concat]; rewrite length_app; lia|].
    cbn [length Nat.add read_rows]. unfold read_row. rewrite Htp.
    cbn [mbind result_bind negb]. rewrite Hrest, Hrow.
    by destruct (read_rows k m r_end).
Qed.

(** On a window that is used up [try_parse] fails, and all it does is to
    clear [count]. *)
Lemma try_parse_exhausted (m : memory) (r : t C) :
  endp_ r <= p_ r ->
  try_parse m r =
  Ok (false, {| stream_ := stream_ r;
                row_ := {| CsvCursor.cells := CsvCursor.cells (row_ r);
                           CsvCursor.count := 0 |};
                endp_ := endp_ r; p_ := p_ r |}).
Proof.
  intros Hp. rewrite try_parse_unfold. unfold parse_fuel. by rewrite run_past_end.
Qed.

End RowsRead.

(** A row of bare and quoted fields, at most 256 of them, that lies in
    the window at the committed position: [read_row] returns true, [count]
    is the number of fields, the cells are the texts of the fields, a
    quoted field without its quotes and with the commas and line ends that
    it holds, and the committed position is past the line feed. *)
Theorem row_of_fields {C : Type} `{StreamCursor C} (m : memory) (r : CsvReader.t C)
    (fs : list field) :
  Wf.reader r -> row_ok fs ->
  load m (CsvReader.p_ r) (length (line fs)) = line fs ->
  CsvReader.p_ r + Z.of_nat (length (line fs)) <= CsvReader.endp_ r ->
  exists r',
    CsvReader.read_row m r = Ok (true, m, r') /\
    CsvCursor.count (CsvReader.row_ r') = Z.of_nat (length fs) /\
    CsvReader.row m r' = map text fs /\
    CsvReader.p_ r' = CsvReader.p_ r + Z.of_nat (length (line fs)).
Proof.
  intros Hwf Hok Hl Hend.
  destruct (try_parse_line m r fs Hwf Hok Hl Hend) as (r' & Htp & _ & _ & Hp & Hc & Hrow & _).
  exists r'. split; [|done]. unfold CsvReader.read_row. by rewrite Htp.
Qed.

(** ** Whole inputs *)

Lemma read_row_mapped_end (m : memory) (r : CsvReader.t MappedFileCursor.t) :
  CsvReader.endp_ r <= CsvReader.p_ r ->
  0 <= MappedFileCursor.remain_ (CsvReader.stream_ r) ->
  exists r', CsvReader.read_row m r = Ok (false, m, r') /\
             CsvReader.p_ r' = CsvReader.endp_ r' /\
             MappedFileCursor.remain_ (CsvReader.stream_ r') = 0.
Proof.
  intros Hp Hrem. unfold CsvReader.read_row. rewrite try_parse_exhausted by done.
  cbn [mbind result_bind negb]. unfold CsvReader.refill, CsvReader.refill_shift.
  cbn [CsvReader.p_ CsvReader.endp_ CsvReader.stream_ CsvReader.row_].
  destruct (Z.ltb_spec (CsvReader.p_ r) (CsvReader.endp_ r)); [lia|].
  cbn [more MappedFileCursor_StreamCursor]. unfold MappedFileCursor.more.
  destruct (Z.ltb_spec (MappedFileCursor.remain_ (CsvReader.stream_ r)) 0); [lia|].
  replace (MappedFileCursor.remain_ (CsvReader.stream_ r)
           - (MappedFileCursor.remain_ (CsvReader.stream_ r) - 0)) with 0 by lia.
  cbn. eexists. split; [reflexivity|]. cbn. unfold MappedFileCursor.size. cbn. lia.
Qed.

Lemma mapped_reader a (bs : list byte) :
  CsvReader.p_ (mapped a bs) = a /\
  CsvReader.endp_ (mapped a bs) = a + Z.of_nat (length bs) /\
  MappedFileCursor.remain_ (CsvReader.stream_ (mapped a bs)) = Z.of_nat (length bs) /\
  length (CsvCursor.cells (CsvReader.row_ (mapped a bs))) = CsvCursor.capacity.
Proof. done. Qed.

(** A file of rows, mapped and read to its end: the calls of [read_row]
    that a caller makes until one returns false deliver the rows of the
    file, each as the texts of its fields, in order and with none lost or
    added. *)
Theorem mapped_file_rows (m : memory) (a : Z) (rows : list (list field)) (n : nat) :
  0 <= a -> a + Z.of_nat (length (concat (map line rows))) < 2 ^ 64 ->
  Forall row_ok rows ->
  load m a (length (concat (map line rows))) = concat (map line rows) ->
  (length rows < n)%nat ->
  CsvReader.read_rows n m (mapped a (concat (map line rows)))
    = Ok (map (map text) rows).
Proof.
  intros Ha H64 Hok Hl Hn. set (bytes := concat (map line rows)) in *.
  destruct (mapped_reader a bytes) as (Hp0 & He0 & Hr0 & Hc0).
  assert (Wf.reader (mapped a bytes)) as Hwf.
  { unfold Wf.reader. rewrite Hp0, He0. split; [done|]. lia. }
  destruct (read_rows_window m rows (n - length rows) (mapped a bytes) Hwf Hok)
    as (r_end & _ & Hs & He & Hp & Hrows).
  { by rewrite Hp0. }
  { rewrite Hp0, He0. fold bytes. lia. }
  replace (length rows + (n - length rows))%nat with n in Hrows by lia.
  rewrite Hrows. destruct (n - length rows)%nat as [|k] eqn:Hk; [lia|].
  destruct (read_row_mapped_end m r_end) as (r' & Hrr & _).
  { rewrite He, Hp, Hp0, He0. fold bytes. lia. }
  { rewrite Hs, Hr0. lia. }
  cbn [CsvReader.read_rows]. rewrite Hrr. cbn [mbind result_bind negb].
  by rewrite app_nil_r.
Qed.

Lemma fd_more_fresh (m : memory) (c : FdStreamCursor.t) bs fd' :
  0 <= FdStreamCursor.size_ c -> FdStreamCursor.fd_ c = Bytes bs :: fd' ->
  (0 < length bs)%nat -> Z.of_nat (length bs) <= FdStreamCursor.buf_size c ->
  exists m2,
    FdStreamCursor.more 0 m c =
      Ok (true, m2,
          {| FdStreamCursor.buf_ := FdStreamCursor.buf_ c;
             FdStreamCursor.buf_size := FdStreamCursor.buf_size c;
             FdStreamCursor.size_ := Z.of_nat (length bs);
             FdStreamCursor.fd_ := fd' |}) /\
    load m2 (FdStreamCursor.buf_ c) (length bs) = bs.
Proof.
  intros Hsz Hfd Hpos Hfit. unfold FdStreamCursor.more, FdStreamCursor.readmore.
  destruct (Z.leb_spec 0 (FdStreamCursor.size_ c)); [|lia]. cbn [negb].
  cbn [FdStreamCursor.buf_ FdStreamCursor.size_ FdStreamCursor.buf_size FdStreamCursor.fd_].
  rewrite Hfd. unfold sys_read.
  replace (Z.to_nat (Z.min (FdStreamCursor.buf_size c - 0) (Z.of_nat (length bs))))
    with (length bs) by lia.
  rewrite drop_all, firstn_all.
  destruct (Z.eqb_spec (Z.of_nat (length bs)) (-1)); [lia|].
  cbn [FdStreamCursor.buf_ FdStreamCursor.size_ FdStreamCursor.buf_size FdStreamCursor.fd_].
  destruct (Z.eqb_spec (0 + Z.of_nat (length bs)) 0); [lia|]. cbn [negb].
  eexists. split; [reflexivity|]. rewrite Z.add_0_r. apply load_store.
Qed.

Lemma fd_more_eof (m : memory) (c : FdStreamCursor.t) :
  0 <= FdStreamCursor.size_ c -> FdStreamCursor.fd_ c = [] ->
  exists m2 c2, FdStreamCursor.more 0 m c = Ok (false, m2, c2).
Proof.
  intros Hsz Hfd. unfold FdStreamCursor.more, FdStreamCursor.readmore.
  destruct (Z.leb_spec 0 (FdStreamCursor.size_ c)); [|lia]. cbn [negb].
  cbn [FdStreamCursor.buf_ FdStreamCursor.size_ FdStreamCursor.buf_size FdStreamCursor.fd_].
  rewrite Hfd. cbn. by eexists _, _.
Qed.

Lemma line_nonempty fs : (0 < length (line fs))%nat.
Proof. unfold line. rewrite length_app. simpl. lia. Qed.

(** The reader of a descriptor, on a window that is used up, with whole
    rows in every delivery to come. *)
Lemma fd_rows (deliveries : list (list (list field))) :
  forall (n : nat) (m : memory) (r : CsvReader.t FdStreamCursor.t),
  Wf.reader r -> CsvReader.endp_ r <= CsvReader.p_ r ->
  0 <= FdStreamCursor.size_ (CsvReader.stream_ r) ->
  0 <= FdStreamCursor.buf_ (CsvReader.stream_ r) ->
  FdStreamCursor.buf_ (CsvReader.stream_ r)
    + FdStreamCursor.buf_size (CsvReader.stream_ r) < 2 ^ 64 ->
  FdStreamCursor.fd_ (CsvReader.stream_ r) = deliveries_fd deliveries ->
  Forall (delivery_ok (FdStreamCursor.buf_size (CsvReader.stream_ r))) deliveries ->
  (length (concat deliveries) < n)%nat ->
  CsvReader.read_rows n m r = Ok (map (map text) (concat deliveries)).
Proof.
  induction deliveries as [|rows ds IH];
    intros n m r Hwf Hex Hsz Hbuf H64 Hfd Hok Hn;
    (destruct n as [|k]; [cbn in Hn; lia|]).
  - cbn [CsvReader.read_rows]. unfold CsvReader.read_row.
    rewrite try_parse_exhausted by done. cbn [mbind result_bind negb].
    unfold CsvReader.refill, CsvReader.refill_shift.
    cbn [CsvReader.p_ CsvReader.endp_ CsvReader.stream_ CsvReader.row_].
    destruct (Z.ltb_spec (CsvReader.p_ r) (CsvReader.endp_ r)); [lia|].
    cbn [more FdStreamCursor_StreamCursor].
    destruct (fd_more_eof m (CsvReader.stream_ r) Hsz Hfd) as (m2 & c2 & ->).
    reflexivity.
  - apply Forall_cons in Hok as [(Hne & Hrows & Hfit) Hok].
    cbn [deliveries_fd map] in Hfd. fold (deliveries_fd ds) in Hfd.
    set (bs := concat (map line rows)) in *.
    set (c := CsvReader.stream_ r) in *.
    destruct rows as [|fs rows']; [done|].
    assert (0 < length bs)%nat as Hpos.
    { unfold bs. cbn [map concat]. rewrite length_app.
      pose proof (line_nonempty fs). lia. }
    destruct (fd_more_fresh m c bs (deliveries_fd ds) Hsz Hfd Hpos Hfit) as (m2 & Hmore & Hl2).
    set (c2 := {| FdStreamCursor.buf_ := FdStreamCursor.buf_ c;
                  FdStreamCursor.buf_size := FdStreamCursor.buf_size c;
                  FdStreamCursor.size_ := Z.of_nat (length bs);
                  FdStreamCursor.fd_ := deliveries_fd ds |}) in *.
    set (r2 := {| CsvReader.stream_ := c2;
                  CsvReader.row_ :=
                    {| CsvCursor.cells := CsvCursor.cells (CsvReader.row_ r);
                       CsvCursor.count := 0 |};
                  CsvReader.endp_ := FdStreamCursor.buf_ c + Z.of_nat (length bs);
                  CsvReader.p_ := FdStreamCursor.buf_ c |}).
    assert (Wf.reader r2) as Hwf2.
    { destruct Hwf as (Hcells & _). unfold Wf.reader, r2.
      cbn [CsvReader.row_ CsvReader.p_ CsvReader.endp_ CsvCursor.cells].
      split; [done|]. lia. }
    assert (CsvReader.read_row m r = CsvReader.read_row m2 r2) as Hsame.
    { apply Forall_cons in Hrows as [Hfs _].
      destruct (try_parse_line m2 r2 fs Hwf2 Hfs) as (r3 & Htp & _).
      { unfold bs in Hl2. cbn [map concat] in Hl2. by apply load_eq_app in Hl2 as [Hl2 _]. }
      { unfold r2, bs. cbn [CsvReader.p_ CsvReader.endp_ map concat].
        rewrite length_app. lia. }
      unfold CsvReader.read_row at 2. rewrite Htp. cbn [mbind result_bind negb].
      unfold CsvReader.read_row. rewrite try_parse_exhausted by done.
      cbn [mbind result_bind negb]. unfold CsvReader.refill, CsvReader.refill_shift.
      cbn [CsvReader.p_ CsvReader.endp_ CsvReader.stream_ CsvReader.row_].
      destruct (Z.ltb_spec (CsvReader.p_ r) (CsvReader.endp_ r)); [lia|].
      cbn [more FdStreamCursor_StreamCursor]. fold c. rewrite Hmore.
      cbn [mbind result_bind negb buf size FdStreamCursor_StreamCursor].
      unfold FdStreamCursor.buf, FdStreamCursor.size.
      cbn [FdStreamCursor.buf_ FdStreamCursor.size_ c2]. fold r2. by rewrite Htp. }
    assert (CsvReader.read_rows (S k) m r = CsvReader.read_rows (S k) m2 r2) as ->
      by (cbn [CsvReader.read_rows]; by rewrite Hsame).
    destruct (read_rows_window m2 (fs :: rows') (S k - length (fs :: rows')) r2 Hwf2 Hrows)
      as (r_end & Hwfe & Hse & Hee & Hpe & Hwin).
    { exact Hl2. }
    { unfold r2. cbn [CsvReader.p_ CsvReader.endp_]. fold bs. lia. }
    cbn [concat] in Hn. rewrite length_app in Hn.
    replace (length (fs :: rows') + (S k - length (fs :: rows')))%nat with (S k) in Hwin by lia.
    rewrite Hwin.
    rewrite (IH (S k - length (fs :: rows'))%nat m2 r_end); try done.
    + cbn [mbind result_bind concat]. by rewrite map_app.
    + rewrite Hee, Hpe. unfold r2. cbn [CsvReader.p_ CsvReader.endp_]. fold bs. lia.
    + rewrite Hse. unfold r2, c2. cbn [CsvReader.stream_ FdStreamCursor.size_]. lia.
    + by rewrite Hse.
    + by rewrite Hse.
    + by rewrite Hse.
    + by rewrite Hse.
    + lia.
Qed.

(** A descriptor that delivers its rows in pieces, each piece made of
    whole rows and no larger than the buffer: the calls of [read_row] that
    a caller makes until one returns false deliver all the rows, in order,
    whatever the buffer held before. *)
Theorem buffered_rows (m : memory) (a : Z) (deliveries : list (list (list field)))
    (n : nat) :
  0 <= a -> a + 131072 < 2 ^ 64 ->
  Forall (delivery_ok 131072) deliveries ->
  (length (concat deliveries) < n)%nat ->
  CsvReader.read_rows n m (buffered a (deliveries_fd deliveries))
    = Ok (map (map text) (concat deliveries)).
Proof.
  intros Ha H64 Hok Hn. apply fd_rows; try done.
  - unfold Wf.reader. split; [reflexivity|]. cbn.
    unfold FdStreamCursor.buf, FdStreamCursor.size. cbn. lia.
  - cbn. unfold FdStreamCursor.buf, FdStreamCursor.size. cbn. lia.
Qed.

(** ** A retry that fails *)

Lemma span_stop args chunk :
  (span args chunk < length chunk)%nat ->
  is_stop args (nth (span args chunk) chunk 0) = true.
Proof.
  induction chunk as [|x chunk IH]; cbn [span length nth]; [lia|].
  destruct (x =? NUL); [lia|]. destruct (is_stop args x) eqn:Hs; [done|].
  intros Hlt. apply IH. lia.
Qed.

(** A scan that ends inside its chunk ends at a stop byte. *)
Lemma strcspn16_stop m p args :
  Forall (fun x => x <> NUL) args -> (length args <= 16)%nat ->
  strcspn16 m p args <> 16 -> is_stop args (m (p + strcspn16 m p args)) = true.
Proof.
  intros Hnz Hlen. rewrite strcspn16_span by done. intros Hne.
  pose proof (span_le args (load m p 16)) as Hle. rewrite load_length in Hle.
  rewrite <- (load_nth m p 16) by lia. apply span_stop. rewrite load_length. lia.
Qed.

(** A quoted field whose closing quote is not in the window: the loop
    is left with false, nothing stored. *)
Lemma unterminated_quote m endp start cell row : forall (n : nat) p,
  (Z.to_nat (endp - p) <= n)%nat ->
  (forall a, p <= a < endp -> m a <> QUOTE) ->
  returns m endp (in_quoted_cell, p, start, cell, row) (Ok (None, row, endp)).
Proof.
  assert (forall l p, endp <= p ->
            returns m endp (l, p, start, cell, row) (Ok (None, row, endp))) as Hout.
  { intros l p Hle. apply returns_step. unfold step, CsvReader.parse_step.
    by destruct (Z.leb_spec endp p); [|lia]. }
  induction n as [|n IH]; intros p Hn Hno.
  - apply Hout. lia.
  - destruct (Z.le_gt_cases endp p) as [Hle|Hlt]; [by apply Hout|].
    destruct stop_set_quoted as [Hnz Hlen].
    pose proof (strcspn16_range m p [QUOTE] Hnz Hlen) as Hrange.
    destruct (Z.eq_dec (strcspn16 m p [QUOTE]) 16) as [H16|H16].
    + eapply reaches_returns.
      * apply reaches_step. unfold step, CsvReader.parse_step.
        destruct (Z.leb_spec endp p); [lia|]. cbv zeta. rewrite H16. reflexivity.
      * apply IH; [lia|]. intros a Ha. apply Hno. lia.
    + pose proof (strcspn16_stop m p [QUOTE] Hnz Hlen H16) as Hstop.
      unfold is_stop in Hstop. cbn [existsb] in Hstop. rewrite orb_false_r in Hstop.
      apply Z.eqb_eq in Hstop.
      assert (endp <= p + strcspn16 m p [QUOTE]) as Hpast.
      { destruct (Z.le_gt_cases endp (p + strcspn16 m p [QUOTE])); [done|].
        exfalso. apply (Hno (p + strcspn16 m p [QUOTE])); [lia|done]. }
      eapply reaches_returns.
      * apply reaches_step. unfold step, CsvReader.parse_step.
        destruct (Z.leb_spec endp p); [lia|]. cbv zeta.
        destruct (Z.eqb_spec (strcspn16 m p [QUOTE]) 16); [contradiction|]. reflexivity.
      * apply Hout. lia.
Qed.

Section Retry.
Context {C : Type} `{StreamCursor C}.

Import CsvReader.

Lemma try_parse_true_LF (m : memory) (r r' : t C) :
  try_parse m r = Ok (true, r') ->
  m (p_ r' - 1) = LF /\ p_ r <= p_ r' - 1 < endp_ r.
Proof.
  intros Htp. pose proof (try_parse_frame _ _ _ _ Htp) as (_ & Hp).
  split; [|lia]. rewrite try_parse_unfold in Htp.
  destruct (run _ _ _ _) as [[[[p'|] row] e]| |] eqn:Hrun; [|done..].
  injection Htp as <-. cbn. by eapply run_return_LF.
Qed.

(** A window without a line feed gives no row, however many fields it
    holds. *)
Lemma try_parse_no_row (m : memory) (r : t C) :
  0 <= p_ r -> endp_ r <= 2 ^ 64 ->
  (forall a, p_ r <= a < endp_ r -> m a <> LF) ->
  exists r', try_parse m r = Ok (false, r').
Proof.
  intros Hp H64 Hno.
  destruct (try_parse_returns_always m r Hp H64) as ([] & r' & Htp); [|by exists r'].
  apply try_parse_true_LF in Htp as [Hlf Hin]. by apply Hno in Hin.
Qed.

(** A window that is an opening quote and no other quote gives no row,
    whatever follows the quote. *)
Lemma try_parse_open_quote (m : memory) (r : t C) :
  p_ r < endp_ r -> m (p_ r) = QUOTE ->
  (forall a, p_ r + 1 <= a < endp_ r -> m a <> QUOTE) ->
  exists r', try_parse m r = Ok (false, r').
Proof.
  intros Hlt Hq Hno.
  set (row0 := {| CsvCursor.cells := CsvCursor.cells (row_ r); CsvCursor.count := 0 |}).
  assert (returns m (endp_ r) (cell_start, p_ r, p_ r, O, row0)
            (Ok (None, row0, endp_ r))) as Hret.
  { eapply reaches_returns.
    - apply reaches_step. unfold step, parse_step.
      destruct (Z.leb_spec (endp_ r) (p_ r)); [lia|]. by rewrite Hq.
    - by apply (unterminated_quote m (endp_ r) _ _ _ (Z.to_nat (endp_ r - (p_ r + 1)))). }
  apply try_parse_returns in Hret. cbv beta iota in Hret. by eexists.
Qed.

End Retry.

(** C4, as amended.  A descriptor hands [bs] to a fresh buffered reader,
    and [bs] is a row that does not end: it holds no line feed (a last
    row without its line end, or the 131072 bytes of a row that is
    larger than the buffer), or it is a quoted field, whatever it holds,
    without its closing quote.  The first [read_row] refills, retries on
    a window that is [bs], fails again and returns false; the first
    [read_row] on a descriptor at its end returns false as well, and the
    caller gets the same from both.  And on any reader: when the retry
    after a refill fails, false is all that [read_row] returns. *)
Theorem failed_read_row (m : memory) (a : Z) (bs : list byte) (fd : list fd_event) :
  0 <= a -> a + 131072 < 2 ^ 64 ->
  bs <> [] -> Z.of_nat (length bs) <= 131072 ->
  Forall (fun x => x <> LF) bs \/
    (exists body, bs = QUOTE :: body /\ Forall (fun x => x <> QUOTE) body) ->
  (exists r1 m2 r2 r3,
     CsvReader.try_parse m (buffered a (Bytes bs :: fd)) = Ok (false, r1) /\
     CsvReader.refill m r1 = Ok (true, m2, r2) /\
     load m2 (CsvReader.p_ r2) (length bs) = bs /\
     CsvReader.endp_ r2 = CsvReader.p_ r2 + Z.of_nat (length bs) /\
     CsvReader.try_parse m2 r2 = Ok (false, r3) /\
     CsvReader.read_row m (buffered a (Bytes bs :: fd)) = Ok (false, m2, r3)) /\
  answer (CsvReader.read_row m (buffered a [])) = Ok false /\
  answer (CsvReader.read_row m (buffered a (Bytes bs :: fd)))
    = answer (CsvReader.read_row m (buffered a [])) /\
  (forall (r : CsvReader.t FdStreamCursor.t) m0 r1 m2 r2 r3,
     CsvReader.try_parse m0 r = Ok (false, r1) ->
     CsvReader.refill m0 r1 = Ok (true, m2, r2) ->
     CsvReader.try_parse m2 r2 = Ok (false, r3) ->
     CsvReader.read_row m0 r = Ok (false, m2, r3)).
Proof.
  intros Ha H64 Hne Hlen Hbs.
  assert (answer (CsvReader.read_row m (buffered a [])) = Ok false) as Heof.
  { unfold CsvReader.read_row. rewrite try_parse_exhausted by (cbn; lia).
    cbn [mbind result_bind negb]. unfold CsvReader.refill, CsvReader.refill_shift.
    cbn [CsvReader.p_ CsvReader.endp_ CsvReader.stream_ CsvReader.row_].
    destruct (Z.ltb_spec (CsvReader.p_ (buffered a [])) (CsvReader.endp_ (buffered a [])));
      [cbn in *; lia|].
    cbn [more FdStreamCursor_StreamCursor].
    destruct (fd_more_eof m (CsvReader.stream_ (buffered a []))) as (m2 & c2 & ->);
      [cbn; lia|done|]. reflexivity. }
  set (r0 := buffered a (Bytes bs :: fd)).
  set (c := CsvReader.stream_ r0).
  assert (0 < length bs)%nat as Hpos by (destruct bs; [done|simpl; lia]).
  destruct (fd_more_fresh m c bs fd) as (m2 & Hmore & Hl2); [cbn; lia|done|done|cbn; lia|].
  set (c2 := {| FdStreamCursor.buf_ := FdStreamCursor.buf_ c;
                FdStreamCursor.buf_size := FdStreamCursor.buf_size c;
                FdStreamCursor.size_ := Z.of_nat (length bs);
                FdStreamCursor.fd_ := fd |}) in *.
  set (r1 := {| CsvReader.stream_ := c;
                CsvReader.row_ :=
                  {| CsvCursor.cells := CsvCursor.cells (CsvReader.row_ r0);
                     CsvCursor.count := 0 |};
                CsvReader.endp_ := CsvReader.endp_ r0; CsvReader.p_ := CsvReader.p_ r0 |}).
  set (r2 := {| CsvReader.stream_ := c2; CsvReader.row_ := CsvReader.row_ r1;
                CsvReader.endp_ := a + Z.of_nat (length bs); CsvReader.p_ := a |}).
  assert (CsvReader.try_parse m r0 = Ok (false, r1)) as Htp1
    by (apply try_parse_exhausted; cbn; lia).
  assert (CsvReader.refill m r1 = Ok (true, m2, r2)) as Hre.
  { unfold CsvReader.refill, CsvReader.refill_shift.
    cbn [CsvReader.p_ CsvReader.endp_ CsvReader.stream_ CsvReader.row_ r1].
    destruct (Z.ltb_spec (CsvReader.p_ r0) (CsvReader.endp_ r0)); [cbn in *; lia|].
    cbn [more FdStreamCursor_StreamCursor]. rewrite Hmore. reflexivity. }
  assert (forall i : nat, (i < length bs)%nat -> m2 (a + Z.of_nat i) = nth i bs 0) as Hm2
    by (intros i Hi; by apply (load_eq_nth m2 a bs i Hl2)).
  assert (exists r3, CsvReader.try_parse m2 r2 = Ok (false, r3)) as [r3 Htp2].
  { destruct Hbs as [Hnolf|(body & -> & Hnoq)].
    - apply try_parse_no_row; cbn [CsvReader.p_ CsvReader.endp_ r2]; try lia.
      intros x Hx. replace x with (a + Z.of_nat (Z.to_nat (x - a))) by lia.
      rewrite Hm2 by lia. rewrite List.Forall_forall in Hnolf. apply Hnolf, nth_In. lia.
    - apply try_parse_open_quote; cbn [CsvReader.p_ CsvReader.endp_ r2].
      + lia.
      + specialize (Hm2 O Hpos). by rewrite Z.add_0_r in Hm2.
      + intros x Hx. replace x with (a + Z.of_nat (S (Z.to_nat (x - a - 1)))) by lia.
        cbn [length] in *. rewrite Hm2 by lia. cbn [nth].
        rewrite List.Forall_forall in Hnoq. apply Hnoq, nth_In. lia. }
  assert (CsvReader.read_row m r0 = Ok (false, m2, r3)) as Hrr.
  { unfold CsvReader.read_row. rewrite Htp1. cbn [mbind result_bind negb].
    rewrite Hre. cbn [mbind result_bind negb]. by rewrite Htp2. }
  split; [|split; [done|split]].
  - exists r1, m2, r2, r3. repeat split; done.
  - by rewrite Heof, Hrr.
  - intros r m0 r1' m2' r2' r3' Ht1 Hr Ht2. unfold CsvReader.read_row.
    rewrite Ht1. cbn [mbind result_bind negb]. rewrite Hr.
    cbn [mbind result_bind negb]. by rewrite Ht2.
Qed.

(** ** What every attempt leaves *)




(** ** Lookup in the row that was read *)

Lemma by_value_find m row value :
  (Z.to_nat (CsvCursor.count row) <= length (CsvCursor.cells row))%nat ->
  by_value m row value =
  Ok (fst <$> list_find (fun t => value = t) (CsvCursor.contents m row)).
Proof.
  intros Hlen. unfold by_value. rewrite by_value_from_spec by lia.
  rewrite drop_0. fold (CsvCursor.contents m row).
  by destruct (list_find _ _) as [[j t]|].
Qed.

(** Reading a row and looking a value up in it: [by_value] answers with
    the index of the first field of the row whose text is the value, and
    with false when no field has that text. *)
Theorem lookup_in_row {C : Type} `{StreamCursor C} (m : memory) (r : CsvReader.t C)
    (fs : list field) :
  Wf.reader r -> row_ok fs ->
  load m (CsvReader.p_ r) (length (line fs)) = line fs ->
  CsvReader.p_ r + Z.of_nat (length (line fs)) <= CsvReader.endp_ r ->
  exists r',
    CsvReader.read_row m r = Ok (true, m, r') /\
    forall value,
      by_value m (CsvReader.row_ r') value =
      Ok (fst <$> list_find (fun t => value = t) (map text fs)).
Proof.
  intros Hwf Hok Hl Hend.
  destruct (try_parse_line m r fs Hwf Hok Hl Hend)
    as (r' & Htp & _ & _ & _ & Hc & Hrow & (Hcells & _)).
  exists r'. split; [unfold CsvReader.read_row; by rewrite Htp|].
  intros value. rewrite by_value_find.
  - by rewrite <- Hrow.
  - rewrite Hc, Hcells, Nat2Z.id. by destruct Hok as (_ & ? & _).
Qed.

(** ** The cursors *)

Lemma mapped_more_closed (c : MappedFileCursor.t) (shift : Z) :
  0 <= MappedFileCursor.remain_ c -> 0 <= shift ->
  MappedFileCursor.more shift c =
  (0 <? Z.min shift (MappedFileCursor.remain_ c),
   {| MappedFileCursor.map_ := MappedFileCursor.map_ c;
      MappedFileCursor.mapsize_ := MappedFileCursor.mapsize_ c;
      MappedFileCursor.remain_ := Z.min shift (MappedFileCursor.remain_ c);
      MappedFileCursor.buf_ :=
        MappedFileCursor.buf_ c + MappedFileCursor.remain_ c
        - Z.min shift (MappedFileCursor.remain_ c) |}).
Proof.
  intros Hrem Hshift. unfold MappedFileCursor.more.
  destruct (Z.ltb_spec (MappedFileCursor.remain_ c) shift).
  - rewrite Z.min_r by lia. f_equal; [f_equal; lia|]. f_equal; lia.
  - rewrite Z.min_l by lia. f_equal; [f_equal; lia|]. f_equal; lia.
Qed.

(** [MappedFileCursor::more]: the end of the window never moves; the new
    window is the last [shift] bytes of the old one, all of it when
    [shift] is larger; the answer is whether it is not empty; a second
    call composes with the first; and once the answer is false it stays
    false, the cursor staying as it is. *)
Theorem mapped_more_window (c : MappedFileCursor.t) (shift : Z) :
  0 <= MappedFileCursor.remain_ c -> 0 <= shift ->
  let c' := (MappedFileCursor.more shift c).2 in
  MappedFileCursor.buf_ c' + MappedFileCursor.remain_ c'
    = MappedFileCursor.buf_ c + MappedFileCursor.remain_ c /\
  MappedFileCursor.remain_ c' = Z.min shift (MappedFileCursor.remain_ c) /\
  (MappedFileCursor.more shift c).1 = (0 <? MappedFileCursor.remain_ c') /\
  (forall shift', 0 <= shift' ->
     (MappedFileCursor.more shift' c').2
       = (MappedFileCursor.more (Z.min shift shift') c).2) /\
  ((MappedFileCursor.more shift c).1 = false ->
   forall shift', 0 <= shift' -> MappedFileCursor.more shift' c' = (false, c')).
Proof.
  intros Hrem Hshift c'. unfold c'. rewrite !mapped_more_closed by done.
  cbn [fst snd MappedFileCursor.remain_ MappedFileCursor.buf_]. 
  split; [lia|]. split; [done|]. split; [done|]. split.
  - intros s' Hs'. rewrite !mapped_more_closed by (cbn; lia).
    cbn [fst snd MappedFileCursor.remain_ MappedFileCursor.buf_ MappedFileCursor.map_
         MappedFileCursor.mapsize_].
    f_equal; lia.
  - intros Hrc s' Hs'. apply Z.ltb_ge in Hrc.
    rewrite mapped_more_closed by (cbn; lia).
    cbn [fst snd MappedFileCursor.remain_ MappedFileCursor.buf_ MappedFileCursor.map_
         MappedFileCursor.mapsize_].
    assert (Z.min shift (MappedFileCursor.remain_ c) = 0) as -> by lia.
    assert (Z.min s' 0 = 0) as -> by lia. cbn. do 2 f_equal. lia.
Qed.

(** [BufferedStreamCursor::more], called with a [shift] that its
    assertion accepts and that keeps the source and the destination of
    its [memcpy] apart: the buffer stays where it is; the new window
    begins with the last [shift] bytes of the old one; after them come
    the bytes that the read delivered, as many as fit, and none when the
    descriptor is at its end or fails; the window never outgrows the
    buffer, and no byte outside the buffer is written. *)
Theorem buffered_more_window (m : memory) (c : FdStreamCursor.t) (shift : Z)
    rc m' c' :
  0 <= shift -> shift + shift <= FdStreamCursor.size_ c ->
  FdStreamCursor.size_ c <= FdStreamCursor.buf_size c ->
  FdStreamCursor.more shift m c = Ok (rc, m', c') ->
  FdStreamCursor.buf_ c' = FdStreamCursor.buf_ c /\
  FdStreamCursor.buf_size c' = FdStreamCursor.buf_size c /\
  shift <= FdStreamCursor.size_ c' <= FdStreamCursor.buf_size c /\
  load m' (FdStreamCursor.buf_ c) (Z.to_nat shift)
    = load m (FdStreamCursor.buf_ c + FdStreamCursor.size_ c - shift) (Z.to_nat shift) /\
  match FdStreamCursor.fd_ c with
  | Bytes bs :: _ =>
      FdStreamCursor.size_ c' - shift
        = Z.min (FdStreamCursor.buf_size c - shift) (Z.of_nat (length bs)) /\
      load m' (FdStreamCursor.buf_ c + shift) (Z.to_nat (FdStreamCursor.size_ c' - shift))
        = take (Z.to_nat (FdStreamCursor.size_ c' - shift)) bs /\
      rc = negb (FdStreamCursor.size_ c' =? 0)
  | Failure :: _ => FdStreamCursor.size_ c' = shift /\ rc = false
  | [] => FdStreamCursor.size_ c' = shift /\ rc = negb (shift =? 0)
  end /\
  (forall a, a < FdStreamCursor.buf_ c \/
             FdStreamCursor.buf_ c + FdStreamCursor.buf_size c <= a -> m' a = m a).
Proof.
  intros Hshift Hapart Hfit. destruct c as [bf cap sz fd].
  unfold FdStreamCursor.more, FdStreamCursor.readmore, memcpy.
  cbn [FdStreamCursor.buf_ FdStreamCursor.size_ FdStreamCursor.buf_size FdStreamCursor.fd_]
    in *.
  destruct (Z.leb_spec shift sz); [|lia]. cbn [negb].
  set (tail := load m (bf + sz - shift) (Z.to_nat shift)).
  assert (length tail = Z.to_nat shift) as Htail by apply load_length.
  assert (load (store m bf tail) bf (Z.to_nat shift) = tail) as Hkept
    by (rewrite <- Htail; apply load_store).
  destruct fd as [|[bs|] fd]; unfold sys_read.
  - cbn. intros [= <- <- <-]. cbn. rewrite Z.add_0_r.
    repeat split; try lia; try done.
    intros a Ha. apply store_outside. lia.
  - set (n := Z.to_nat (Z.min (cap - shift) (Z.of_nat (length bs)))).
    assert (length (take n bs) = n) as Hn by (rewrite length_take; lia).
    destruct (Z.eqb_spec (Z.of_nat n) (-1)); [lia|].
    intros [= <- <- <-].
    cbn [FdStreamCursor.buf_ FdStreamCursor.size_ FdStreamCursor.buf_size
         FdStreamCursor.fd_].
    replace (shift + Z.of_nat n - shift) with (Z.of_nat n) by lia. rewrite Nat2Z.id.
    split; [done|]. split; [done|]. split; [lia|]. split; [|split; [split; [lia|split]|]].
    + etrans; [|exact Hkept]. apply load_ext. intros a Ha. apply store_outside. lia.
    + etrans; [|apply (load_store (store m bf tail) (bf + shift) (take n bs))].
      by rewrite Hn.
    + done.
    + intros a Ha. rewrite store_outside by lia. apply store_outside. lia.
  - cbn. intros [= <- <- <-]. cbn.
    repeat split; try lia; try done.
    intros a Ha. apply store_outside. lia.
Qed.

(** ** The table of the portable scanner *)

Lemma nth_insert (l : list Z) (i j : nat) (v d : Z) :
  (i < length l)%nat ->
  nth j (<[i := v]> l) d = if (j =? i)%nat then v else nth j l d.
Proof.
  intros Hi. rewrite !nth_lookup. destruct (Nat.eqb_spec j i) as [->|Hne].
  - by rewrite list_lookup_insert_eq.
  - by rewrite list_lookup_insert_ne.
Qed.

Lemma mark_args m c args : forall n charset tbl,
  Forall (fun x => 0 < x < 128) args ->
  load m charset (S (length args)) = args ++ [NUL] ->
  (length args < n)%nat ->
  FallbackStringSpanner.mark m charset c tbl n =
  Some (fold_left
          (fun t x => <[Z.to_nat (FallbackStringSpanner.unsigned_of_char x)
                        := FallbackStringSpanner.b2z c]> t) args tbl).
Proof.
  induction args as [|x args IH]; intros n charset tbl Hnz Hl Hn;
    (destruct n as [|n]; [cbn in Hn; lia|]); cbn [FallbackStringSpanner.mark fold_left].
  - cbn in Hl. injection Hl as ->. done.
  - apply Forall_cons in Hnz as [Hx Hnz]. cbn [length load app] in Hl.
    injection Hl as Hm Hl. rewrite Hm.
    destruct (Z.eqb_spec x NUL); [unfold NUL in *; lia|].
    unfold FallbackStringSpanner.unsigned_of_char at 1.
    destruct (Z.ltb_spec x 128); [|lia]. destruct (Z.ltb_spec x 256); [|lia].
    apply IH; [done..|cbn in Hn; lia].
Qed.

Lemma marks_flag c args : forall tbl,
  Forall (fun x => 0 < x < 128) args -> length tbl = 256%nat ->
  forall z, 0 <= z < 256 ->
  nth (Z.to_nat z)
    (fold_left
       (fun t x => <[Z.to_nat (FallbackStringSpanner.unsigned_of_char x)
                     := FallbackStringSpanner.b2z c]> t) args tbl) 0 =
  if is_stop args z then FallbackStringSpanner.b2z c else nth (Z.to_nat z) tbl 0.
Proof.
  induction args as [|x args IH]; intros tbl Hascii Hlen z Hz; [done|].
  apply Forall_cons in Hascii as [Hx Hascii]. cbn [fold_left].
  rewrite IH by (done || by rewrite length_insert).
  unfold is_stop. cbn [existsb]. fold (is_stop args z).
  destruct (is_stop args z); [by rewrite orb_true_r|]. rewrite orb_false_r.
  unfold FallbackStringSpanner.unsigned_of_char.
  destruct (Z.ltb_spec x 128); [|lia]. rewrite nth_insert by lia.
  destruct (Z.eqb_spec z x) as [->|Hne].
  - by rewrite Nat.eqb_refl.
  - destruct (Nat.eqb_spec (Z.to_nat z) (Z.to_nat x)); [lia|done].
Qed.

Lemma marks_length c args : forall tbl,
  length (fold_left
            (fun t x => <[Z.to_nat (FallbackStringSpanner.unsigned_of_char x)
                          := FallbackStringSpanner.b2z c]> t) args tbl) = length tbl.
Proof.
  induction args as [|x args IH]; intros tbl; [done|]. cbn [fold_left].
  by rewrite IH, length_insert.
Qed.

(** What the constructor leaves in the table, for a set of ASCII bytes. *)
Lemma create_table m0 charset args c fuel0 :
  Forall (fun x => 0 < x < 128) args ->
  load m0 charset (S (length args)) = args ++ [NUL] ->
  (length args < fuel0)%nat ->
  exists tbl,
    FallbackStringSpanner.create m0 charset c fuel0 = Some tbl /\
    length tbl = 256%nat /\
    forall z, 0 <= z < 256 ->
      nth (Z.to_nat z) tbl 0 =
      if z =? 0 then 0
      else if is_stop args z then FallbackStringSpanner.b2z c
      else FallbackStringSpanner.b2z (negb c).
Proof.
  intros Hascii Hl Hfuel. unfold FallbackStringSpanner.create.
  assert (Forall (fun x => x <> NUL) args) as Hnz.
  { eapply Forall_impl; [exact Hascii|]. unfold NUL. intros x; cbn; lia. }
  rewrite (mark_args m0 c args) by done. cbn [mbind option_bind].
  eexists. split; [reflexivity|]. split.
  - by rewrite length_insert, marks_length, length_replicate.
  - intros z Hz. rewrite nth_insert by (rewrite marks_length, length_replicate; lia).
    destruct (Z.eqb_spec z 0) as [->|Hz0]; [done|].
    destruct (Nat.eqb_spec (Z.to_nat z) 0); [lia|].
    rewrite marks_flag by (done || by rewrite length_replicate).
    destruct (is_stop args z); [done|].
    rewrite nth_lookup, lookup_replicate_2 by lia. done.
Qed.

(** The table that the constructor of the portable scanner builds for a
    C string of ASCII bytes: 256 flags; the flag of NUL is 0; the flag of
    a byte of the string is [c], and that of any other byte is [!c]. *)
Theorem fallback_table (m0 : memory) (charset : Z) (args : list byte) (c : bool)
    (fuel0 : nat) :
  Forall (fun x => 0 < x < 128) args ->
  load m0 charset (S (length args)) = args ++ [NUL] ->
  (length args < fuel0)%nat ->
  exists tbl,
    FallbackStringSpanner.create m0 charset c fuel0 = Some tbl /\
    length tbl = 256%nat /\
    forall z, 0 <= z < 256 ->
      nth (Z.to_nat z) tbl 0 =
      if z =? 0 then 0
      else if is_stop args z then FallbackStringSpanner.b2z c
      else FallbackStringSpanner.b2z (negb c).
Proof. apply create_table. Qed.

(** The two scanners on the same bytes.  With the table built for the
    stop set (flags cleared for the stop bytes), at bytes that are not
    stop bytes, that a stop byte follows: the portable scanner returns the
    offset of the stop byte, and the vectorized one returns that offset
    when it is below 16 and 16 otherwise. *)
Theorem scanners_agree (m0 : memory) (charset : Z) (args : list byte) (fuel0 : nat)
    (m : memory) (buf : Z) (bs : list byte) (t : byte) (fuel : nat) :
  Forall (fun x => 0 < x < 128) args -> (length args <= 16)%nat ->
  load m0 charset (S (length args)) = args ++ [NUL] ->
  (length args < fuel0)%nat ->
  Forall (fun x => 0 < x < 256 /\ is_stop args x = false) bs ->
  is_stop args t = true ->
  load m buf (S (length bs)) = bs ++ [t] ->
  (length bs / 4 < fuel)%nat ->
  exists tbl,
    FallbackStringSpanner.create m0 charset false fuel0 = Some tbl /\
    FallbackStringSpanner.call tbl m buf fuel = Some (Z.of_nat (length bs)) /\
    strcspn16 m buf args = Z.of_nat (Nat.min (length bs) 16).
Proof.
  intros Hascii Hlen Hl0 Hfuel0 Hbs Ht Hl Hfuel.
  destruct (create_table m0 charset args false fuel0 Hascii Hl0 Hfuel0)
    as (tbl & Hcreate & Htlen & Hflag).
  assert (Forall (fun x => x <> NUL) args) as Hnz.
  { eapply Forall_impl; [exact Hascii|]. unfold NUL. intros x; cbn; lia. }
  assert (0 < t < 128) as Htr.
  { unfold is_stop in Ht. apply existsb_exists in Ht as (x & Hin & Heq).
    apply Z.eqb_eq in Heq. subst x. rewrite List.Forall_forall in Hascii. by apply Hascii. }
  assert (length (bs ++ [t]) = S (length bs)) as Hlen' by (rewrite length_app; simpl; lia).
  rewrite <- Hlen' in Hl.
  exists tbl. split; [done|]. split.
  - unfold FallbackStringSpanner.call.
    rewrite (fallback_scan tbl m buf fuel buf (length bs)); [f_equal; lia| | | |done].
    + by eapply create_flags.
    + intros i Hi. rewrite (load_eq_nth m buf _ i Hl) by lia. rewrite app_nth1 by done.
      rewrite List.Forall_forall in Hbs.
      destruct (Hbs (nth i bs 0) ltac:(by apply nth_In)) as [Hr Hns].
      rewrite Hflag by lia. destruct (Z.eqb_spec (nth i bs 0) 0); [lia|]. by rewrite Hns.
    + rewrite (load_eq_nth m buf _ (length bs) Hl) by lia.
      rewrite app_nth2, Nat.sub_diag by lia. cbn [nth].
      rewrite Hflag by lia. destruct (Z.eqb_spec t 0); [done|]. by rewrite Ht.
  - rewrite Hlen' in Hl. apply (strcspn16_load m args buf bs t); try done.
    eapply Forall_impl; [exact Hbs|]. intros x [Hr Hns]. split; [unfold NUL; lia|done].
Qed.

(** ** Carriage returns before a row *)

Lemma cr_skipped m endp : forall (k : nat) p start cell row,
  load m p k = replicate k CR -> p + Z.of_nat k <= endp ->
  reaches m endp (cell_start, p, start, cell, row)
    (cell_start, p + Z.of_nat k, start, cell, row).
Proof.
  induction k as [|k IH]; intros p start cell row Hl Hend.
  - apply reaches_eq. lia.
  - cbn [load replicate] in Hl. injection Hl as Hp Hl.
    eapply reaches_trans.
    + apply reaches_step. unfold step, CsvReader.parse_step.
      destruct (Z.leb_spec endp p); [lia|]. by rewrite Hp.
    + eapply reaches_trans; [apply IH; [done|lia]|]. apply reaches_eq. lia.
Qed.

(** Carriage returns in front of a row are stepped over: the row is read
    as it is without them, and the committed position passes them too. *)
Theorem carriage_returns_before_row {C : Type} `{StreamCursor C} (m : memory)
    (r : CsvReader.t C) (k : nat) (fs : list field) :
  Wf.reader r -> row_ok fs ->
  load m (CsvReader.p_ r) (length (replicate k CR ++ line fs)) = replicate k CR ++ line fs ->
  CsvReader.p_ r + Z.of_nat (length (replicate k CR ++ line fs)) <= CsvReader.endp_ r ->
  exists r',
    CsvReader.read_row m r = Ok (true, m, r') /\
    CsvCursor.count (CsvReader.row_ r') = Z.of_nat (length fs) /\
    CsvReader.row m r' = map text fs /\
    CsvReader.p_ r' = CsvReader.p_ r + Z.of_nat (length (replicate k CR ++ line fs)).
Proof.
  intros (Hcells & Hp & H64) (Hne & Hlen & Hok) Hl Hend.
  apply load_eq_app in Hl as [Hcr Hl]. rewrite length_app in Hend.
  rewrite length_replicate in *.
  set (row0 := {| CsvCursor.cells := CsvCursor.cells (CsvReader.row_ r);
                  CsvCursor.count := 0 |}).
  assert (returns m (CsvReader.endp_ r)
            (cell_start, CsvReader.p_ r, CsvReader.p_ r, O, row0)
            (Ok (Some (CsvReader.p_ r + Z.of_nat k + Z.of_nat (length (line fs))),
                 {| CsvCursor.cells :=
                      put_cells (CsvCursor.cells row0) O
                        (field_cells (CsvReader.p_ r + Z.of_nat k) fs);
                    CsvCursor.count := CsvCursor.count row0 + Z.of_nat (length fs) |},
                 CsvReader.endp_ r)))
    as Hret.
  { eapply reaches_returns; [apply (cr_skipped m _ k); [done|lia]|].
    apply row_parsed; try done; try lia.
    cbn [row0 CsvCursor.count]. unfold CsvCursor.capacity in Hlen. lia. }
  apply try_parse_returns in Hret. cbv beta iota in Hret.
  eexists. split; [unfold CsvReader.read_row; by rewrite Hret|].
  cbn [CsvReader.row_ CsvReader.p_ CsvCursor.count CsvCursor.cells row0].
  split; [lia|]. split; [|rewrite length_app, length_replicate; lia].
  unfold CsvReader.row, CsvCursor.contents.
  cbn [CsvReader.row_ CsvCursor.cells CsvCursor.count].
  rewrite Z.add_0_l, Nat2Z.id.
  rewrite <- (field_cells_length (CsvReader.p_ r + Z.of_nat k) fs) at 1.
  pose proof (take_put_cells (CsvCursor.cells (CsvReader.row_ r)) O
                (field_cells (CsvReader.p_ r + Z.of_nat k) fs)) as Ht.
  cbn [Nat.add take app] in Ht. rewrite Ht by (rewrite field_cells_length; lia).
  apply as_str_field_cells. unfold line in Hl. by apply load_eq_app in Hl as [Hl _].
Qed.

(** ** These theorems at concrete inputs *)

Lemma abcd_row_ok : row_ok abcd_row.
Proof.
  split; [discriminate|]. split; [unfold CsvCursor.capacity; cbn; lia|].
  repeat constructor; discriminate.
Qed.

Lemma abcd_reader_wf : Wf.reader (mapped 1000 (line abcd_row)).
Proof. unfold Wf.reader. split; [reflexivity|]. cbn. lia. Qed.

(** [by_value_first] at the row [a], [b,c], [d] and the value [d]. *)
Lemma by_value_first_witness :
  by_value (file 1000 (line abcd_row)) (CsvReader.row_ abcd_outcome.2) [100]
    = Ok (Some 2%nat).
Proof.
  destruct (by_value_first (file 1000 (line abcd_row)) (CsvReader.row_ abcd_outcome.2) [100])
    as (_ & Hiff & _).
  - vm_compute. lia.
  - apply Hiff. split; [vm_compute; reflexivity|].
    intros [|[|j]] Hj; [vm_compute; discriminate..|lia].
Defined.

(** [lookup_in_row] at the same row. *)
Lemma lookup_in_row_witness :
  exists r',
    CsvReader.read_row (file 1000 (line abcd_row)) (mapped 1000 (line abcd_row))
      = Ok (true, file 1000 (line abcd_row), r') /\
    forall value,
      by_value (file 1000 (line abcd_row)) (CsvReader.row_ r') value =
      Ok (fst <$> list_find (fun t => value = t) (map text abcd_row)).
Proof.
  apply (lookup_in_row (file 1000 (line abcd_row)) (mapped 1000 (line abcd_row)) abcd_row).
  - apply abcd_reader_wf.
  - apply abcd_row_ok.
  - vm_compute. reflexivity.
  - cbn. lia.
Defined.

(** [row_ends_at_line_feed] at the same row. *)
Lemma row_ends_at_line_feed_witness :
  file 1000 (line abcd_row) (CsvReader.p_ abcd_outcome.2 - 1) = LF /\
  CsvReader.p_ (mapped 1000 (line abcd_row)) <= CsvReader.p_ abcd_outcome.2 - 1
    < CsvReader.endp_ (mapped 1000 (line abcd_row)).
Proof.
  apply (proj1 (row_ends_at_line_feed (file 1000 (line abcd_row))
                  (mapped 1000 (line abcd_row)))).
  vm_compute. reflexivity.
Defined.



(** [window_only] at the same row, with other bytes after the window. *)
Lemma window_only_witness :
  CsvReader.try_parse (file 1000 (line abcd_row)) (mapped 1000 (line abcd_row))
  = CsvReader.try_parse (store (file 1000 (line abcd_row)) 1012 [34; 44; 10])
      (mapped 1000 (line abcd_row)).
Proof.
  apply window_only. intros a Ha. cbn in Ha.
  symmetry. apply store_outside. lia.
Defined.

(** [row_of_fields] at the same row. *)
Lemma row_of_fields_witness :
  exists r',
    CsvReader.read_row (file 1000 (line abcd_row)) (mapped 1000 (line abcd_row))
      = Ok (true, file 1000 (line abcd_row), r') /\
    CsvCursor.count (CsvReader.row_ r') = Z.of_nat (length abcd_row) /\
    CsvReader.row (file 1000 (line abcd_row)) r' = map text abcd_row /\
    CsvReader.p_ r'
      = CsvReader.p_ (mapped 1000 (line abcd_row)) + Z.of_nat (length (line abcd_row)).
Proof.
  apply (row_of_fields (file 1000 (line abcd_row)) (mapped 1000 (line abcd_row)) abcd_row).
  - apply abcd_reader_wf.
  - apply abcd_row_ok.
  - vm_compute. reflexivity.
  - cbn. lia.
Defined.

Lemma abcd_rows_ok : Forall row_ok abcd_rows.
Proof.
  constructor; [apply abcd_row_ok|]. constructor; [|constructor].
  split; [discriminate|]. split; [unfold CsvCursor.capacity; cbn; lia|].
  repeat constructor; discriminate.
Qed.

Lemma abcd_deliveries_ok : Forall (delivery_ok 131072) abcd_deliveries.
Proof.
  assert (row_ok [Bare []; Bare [101]]) as Hrow.
  { split; [discriminate|]. split; [unfold CsvCursor.capacity; cbn; lia|].
    repeat constructor; discriminate. }
  constructor; [|constructor; [|constructor]].
  - split; [discriminate|]. split; [|cbn; lia].
    constructor; [apply abcd_row_ok|constructor].
  - split; [discriminate|]. split; [|cbn; lia].
    constructor; [exact Hrow|]. constructor; [apply abcd_row_ok|constructor].
Qed.

(** [mapped_file_rows] at a file of two rows. *)
Lemma mapped_file_rows_witness :
  CsvReader.read_rows 3 (file 1000 (concat (map line abcd_rows)))
    (mapped 1000 (concat (map line abcd_rows)))
  = Ok (map (map text) abcd_rows).
Proof.
  apply mapped_file_rows.
  - lia.
  - cbn. lia.
  - apply abcd_rows_ok.
  - vm_compute. reflexivity.
  - cbn. lia.
Defined.

(** [buffered_rows] at three rows in two deliveries. *)
Lemma buffered_rows_witness :
  CsvReader.read_rows 4 zeroed (buffered 0 (deliveries_fd abcd_deliveries))
  = Ok (map (map text) (concat abcd_deliveries)).
Proof.
  apply buffered_rows.
  - lia.
  - lia.
  - apply abcd_deliveries_ok.
  - cbn. lia.
Defined.

(** [mapped_more_window] at a window of ten bytes and a shift of four. *)
Lemma mapped_more_window_witness :
  MappedFileCursor.remain_ (MappedFileCursor.more 4 (MappedFileCursor.opened 1000 10)).2
    = Z.min 4 (MappedFileCursor.remain_ (MappedFileCursor.opened 1000 10)).
Proof.
  destruct (mapped_more_window (MappedFileCursor.opened 1000 10) 4) as (_ & Hrem & _).
  - cbn. lia.
  - lia.
  - exact Hrem.
Defined.

(** [buffered_more_window] at a window of four bytes, a shift of two and
    a delivery of two bytes. *)
Lemma buffered_more_window_witness :
  load small_more_outcome.1.2 (FdStreamCursor.buf_ small_cursor) (Z.to_nat 2)
    = load (file 0 [97; 98; 99; 100])
        (FdStreamCursor.buf_ small_cursor + FdStreamCursor.size_ small_cursor - 2)
        (Z.to_nat 2).
Proof.
  destruct (buffered_more_window (file 0 [97; 98; 99; 100]) small_cursor 2
              small_more_outcome.1.1 small_more_outcome.1.2 small_more_outcome.2)
    as (_ & _ & _ & Hkept & _).
  - lia.
  - cbn. lia.
  - cbn. lia.
  - vm_compute. reflexivity.
  - exact Hkept.
Defined.

(** [fallback_table] at the stop set of [in_unquoted_cell]. *)
Lemma fallback_table_witness :
  exists tbl,
    FallbackStringSpanner.create (file 100 [44; 13; 10]) 100 false 8 = Some tbl /\
    length tbl = 256%nat /\
    forall z, 0 <= z < 256 ->
      nth (Z.to_nat z) tbl 0 =
      if z =? 0 then 0
      else if is_stop [44; 13; 10] z then FallbackStringSpanner.b2z false
      else FallbackStringSpanner.b2z (negb false).
Proof.
  apply fallback_table.
  - repeat constructor; lia.
  - vm_compute. reflexivity.
  - cbn. lia.
Defined.

(** [scanners_agree] at two letters that a comma follows. *)
Lemma scanners_agree_witness :
  exists tbl,
    FallbackStringSpanner.create (file 100 [44; 13; 10]) 100 false 8 = Some tbl /\
    FallbackStringSpanner.call tbl (file 0 [97; 98; 44]) 0 8
      = Some (Z.of_nat (length [97; 98])) /\
    strcspn16 (file 0 [97; 98; 44]) 0 [44; 13; 10]
      = Z.of_nat (Nat.min (length [97; 98]) 16).
Proof.
  apply (scanners_agree (file 100 [44; 13; 10]) 100 [44; 13; 10] 8
           (file 0 [97; 98; 44]) 0 [97; 98] 44 8).
  - repeat constructor; lia.
  - cbn. lia.
  - vm_compute. reflexivity.
  - cbn. lia.
  - repeat constructor; lia.
  - reflexivity.
  - vm_compute. reflexivity.
  - cbn. lia.
Defined.

(** [carriage_returns_before_row] at two carriage returns and the row
    [a], [b,c], [d]. *)
Lemma carriage_returns_before_row_witness :
  exists r',
    CsvReader.read_row (file 1000 (replicate 2 CR ++ line abcd_row))
      (mapped 1000 (replicate 2 CR ++ line abcd_row))
      = Ok (true, file 1000 (replicate 2 CR ++ line abcd_row), r') /\
    CsvCursor.count (CsvReader.row_ r') = Z.of_nat (length abcd_row) /\
    CsvReader.row (file 1000 (replicate 2 CR ++ line abcd_row)) r' = map text abcd_row /\
    CsvReader.p_ r'
      = CsvReader.p_ (mapped 1000 (replicate 2 CR ++ line abcd_row))
        + Z.of_nat (length (replicate 2 CR ++ line abcd_row)).
Proof.
  apply (carriage_returns_before_row (file 1000 (replicate 2 CR ++ line abcd_row))
           (mapped 1000 (replicate 2 CR ++ line abcd_row)) 2 abcd_row).
  - unfold Wf.reader. split; [reflexivity|]. cbn. lia.
  - apply abcd_row_ok.
  - vm_compute. reflexivity.
  - cbn. lia.
Defined.

(** [failed_read_row] at a descriptor that ends inside a quoted field. *)
Lemma failed_read_row_witness :
  (exists r1 m2 r2 r3,
     CsvReader.try_parse zeroed (buffered 0 [Bytes open_quote]) = Ok (false, r1) /\
     CsvReader.refill zeroed r1 = Ok (true, m2, r2) /\
     load m2 (CsvReader.p_ r2) (length open_quote) = open_quote /\
     CsvReader.endp_ r2 = CsvReader.p_ r2 + Z.of_nat (length open_quote) /\
     CsvReader.try_parse m2 r2 = Ok (false, r3) /\
     CsvReader.read_row zeroed (buffered 0 [Bytes open_quote]) = Ok (false, m2, r3)) /\
  answer (CsvReader.read_row zeroed (buffered 0 [])) = Ok false /\
  answer (CsvReader.read_row zeroed (buffered 0 [Bytes open_quote]))
    = answer (CsvReader.read_row zeroed (buffered 0 [])) /\
  (forall (r : CsvReader.t FdStreamCursor.t) m0 r1 m2 r2 r3,
     CsvReader.try_parse m0 r = Ok (false, r1) ->
     CsvReader.refill m0 r1 = Ok (true, m2, r2) ->
     CsvReader.try_parse m2 r2 = Ok (false, r3) ->
     CsvReader.read_row m0 r = Ok (false, m2, r3)).
Proof.
  apply (failed_read_row zeroed 0 open_quote []).
  - lia.
  - lia.
  - discriminate.
  - cbn. lia.
  - right. exists [97; 98]. split; [reflexivity|]. repeat constructor; discriminate.
Defined.

